(** * rtsp-to-mjpeg: the frame pipeline of [src/main.py]

    A shallow embedding of [generate_frames] and [video_feed] (the decoder
    process, the byte source, the JPEG boundary scan and the multipart
    wrapping) and of the registry functions [add_stream], [remove_stream]
    and [query_db], followed by the properties of the specification. *)

From Stdlib Require Import String Ascii Strings.Byte Numbers.DecimalString.
From Stdlib Require Import List ZArith Lia Bool Sorted.
Import ListNotations.
Local Open Scope Z_scope.

(** ** Python [bytes] *)

Definition bytes := list byte.

Definition len (data : bytes) : Z := Z.of_nat (length data).

(** [data.startswith(sub)] *)
Fixpoint startswith (sub data : bytes) : bool :=
  match sub, data with
  | [], _ => true
  | _ :: _, [] => false
  | a :: sub', b :: data' => Byte.eqb a b && startswith sub' data'
  end.

(** Offset of the first occurrence of [sub] in [data], scanning left to
    right; the empty pattern matches at the very end of the data too. *)
Fixpoint search (sub data : bytes) : option nat :=
  if startswith sub data then Some 0%nat
  else match data with
       | [] => None
       | _ :: tl => option_map S (search sub tl)
       end.

(** [data.find(sub, start)]: the lowest index [i >= start] with
    [data[i:i+len(sub)] == sub], or [-1].  A negative [start] counts from
    the end of the data and is clamped at [0], as for slices. *)
Definition find (sub data : bytes) (start : Z) : Z :=
  let n := len data in
  let s := if start <? 0 then Z.max 0 (start + n) else start in
  if n <? s then -1
  else match search sub (skipn (Z.to_nat s) data) with
       | Some k => s + Z.of_nat k
       | None => -1
       end.

(** A slice bound, normalised as Python does. *)
Definition clamp_index (n i : Z) : Z :=
  if i <? 0 then Z.max 0 (i + n) else Z.min i n.

(** [data[lo:hi]] *)
Definition slice (data : bytes) (lo hi : Z) : bytes :=
  let l := clamp_index (len data) lo in
  let h := clamp_index (len data) hi in
  firstn (Z.to_nat (h - l)) (skipn (Z.to_nat l) data).

(** [data[lo:]] *)
Definition slice_from (data : bytes) (lo : Z) : bytes :=
  skipn (Z.to_nat (clamp_index (len data) lo)) data.

(** ** The JPEG boundary scan (lines 142-151) *)

(** [b'\xff\xd8'] and [b'\xff\xd9'] *)
Definition SOI : bytes := [xff; xd8].
Definition EOI : bytes := [xff; xd9].

(** One pass of the inner [while True]: [Some (frame, data')] when the pass
    cuts a frame out of the buffer and reaches the [yield]; [None] when it
    takes the [else: break] branch, the buffer being left as it is. *)
Definition scan_step (data : bytes) : option (bytes * bytes) :=
  let start := find SOI data 0 in
  let end_ := find EOI data (start + 2) in
  if negb (start =? -1) && negb (end_ =? -1) then
    Some (slice data start (end_ + 2), slice_from data (end_ + 2))
  else None.

(** The inner loop run until its [break], for a consumer that resumes the
    generator after every [yield]: the frames cut out, in the order they are
    yielded, and the buffer at the [break].  Every pass that yields shortens
    the buffer, so [length data] passes are enough ([drain_unfold],
    [drain_exits]); [drive_drain] shows the generator doing just this. *)
Fixpoint drain_fuel (fuel : nat) (data : bytes) : list bytes * bytes :=
  match fuel with
  | O => ([], data)
  | S fuel' =>
      match scan_step data with
      | Some (frame, data') =>
          let '(frames, rest) := drain_fuel fuel' data' in
          (frame :: frames, rest)
      | None => ([], data)
      end
  end.

Definition drain (data : bytes) : list bytes * bytes :=
  drain_fuel (length data) data.

(** The part of the outer loop body after the end-of-stream test:
    [data += chunk] and then the inner loop. *)
Definition feed (data chunk : bytes) : list bytes * bytes :=
  drain (data ++ chunk).

(** [feed] over successive chunks, the buffer carried from one to the next. *)
Fixpoint feed_all (data : bytes) (chunks : list bytes) : list bytes * bytes :=
  match chunks with
  | [] => ([], data)
  | chunk :: chunks' =>
      let '(frames, data') := feed data chunk in
      let '(frames', data'') := feed_all data' chunks' in
      (frames ++ frames', data'')
  end.

(** The multipart section built around a frame at the [yield]. *)
Definition CRLF : bytes := [x0d; x0a].

Definition part_header : bytes :=
  list_byte_of_string "--frame" ++ CRLF ++
  list_byte_of_string "Content-Type: image/jpeg" ++ CRLF ++ CRLF.

Definition multipart (frame : bytes) : bytes :=
  part_header ++ frame ++ CRLF.

(** ** Exceptions *)

Inductive exn :=
| OverflowError          (* an [int] bound to a statement is outside 64 bits *)
| LaunchError            (* [Popen] could not start the program *)
| ReadFailure            (* raised by [p.stdout.read] *)
| Thrown (tag : nat).    (* thrown into the generator by its consumer *)

(** The integers SQLite holds, and the only ones a statement accepts as a
    parameter: those of the signed 64-bit range.  Binding another [int]
    raises [OverflowError] before the statement runs. *)
Definition int64 (n : Z) : bool :=
  (-9223372036854775808 <=? n) && (n <=? 9223372036854775807).

(** ** The registry (lines 37-99) *)

(** A row of the table [streams (id INTEGER PRIMARY KEY, url TEXT,
    active INTEGER, quality TEXT, resolution TEXT, fps INTEGER)].  The
    values are those of the annotated Python types ([str], [str], [str],
    [int]), which the columns hold as they are given. *)
Record stream_row := {
  row_id : Z;
  row_url : string;
  row_active : Z;
  row_quality : string;
  row_resolution : string;
  row_fps : Z
}.

(** The table, in insertion order. *)
Definition database := list stream_row.

(** The key an [INSERT] without an id receives: one more than the largest
    key of the table, [1] in an empty table. *)
Definition next_rowid (db : database) : Z :=
  fold_right (fun r m => Z.max (row_id r) m) 0 db + 1.

(** [add_stream]: the table after the call and the exception it raises,
    if any.  No argument is tested before the [INSERT]; the statement
    itself refuses an [fps] it cannot bind, and then nothing is stored. *)
Definition add_stream (url quality resolution : string) (fps : Z)
    (db : database) : database * option exn :=
  if int64 fps then
    (db ++ [{| row_id := next_rowid db; row_url := url; row_active := 1;
               row_quality := quality; row_resolution := resolution;
               row_fps := fps |}], None)
  else (db, Some OverflowError).

(** [SELECT url, quality, resolution, fps FROM streams WHERE id = ?] *)
Definition select_stream (db : database) (stream_id : Z)
    : list (string * string * string * Z) :=
  map (fun r => (row_url r, row_quality r, row_resolution r, row_fps r))
      (filter (fun r => row_id r =? stream_id) db).

(** [rv[0] if rv else None], the result of [query_db] with [one=True]. *)
Definition one {A : Type} (rv : list A) : option A :=
  match rv with
  | [] => None
  | r :: _ => Some r
  end.

(** ** The decoder command (lines 123-133) *)

(** [str(fps)] for an [int]. *)
Definition str (n : Z) : string := NilZero.string_of_int (Z.to_int n).

Definition command (stream_url quality resolution : string) (fps : Z)
    : list string :=
  [ "ffmpeg";
    "-rtsp_transport"; "tcp";
    "-i"; stream_url;
    "-r"; str fps;
    "-c:v"; "mjpeg";
    "-vf"; String.append "scale=" resolution;
    "-q:v"; quality;
    "-f"; "image2pipe";
    "-" ]%string.

(** ** The generator [generate_frames] (lines 101-153) *)

(** What one [p.stdout.read(4096)] gives: bytes, at most 4096 of them and
    none at the end of the stream, or an exception. *)
Inductive read_result :=
| ReadBytes (chunk : bytes)
| ReadError.

(** The byte source: the results of the successive reads; once the list is
    used up every read is at the end of the stream. *)
Definition byte_source := list read_result.

(** What the process and the consumer see, in the order it happens.
    [EvRead] is a call [p.stdout.read(size)]; it also carries the value
    of [data] at the call, so that the buffer invariant can be stated on
    traces.  [EvExit] is the end of the [with] block ([Popen.__exit__]). *)
Inductive event :=
| EvPopen (cmd : list string)
| EvRead (size : Z) (data : bytes)
| EvYield (chunk : bytes)
| EvKill
| EvExit.

(** A Python generator object: created and not started, suspended at the
    [yield] of line 148 with its local [data] (the process is running), or
    finished. *)
Inductive generator :=
| GenCreated (stream_id : Z)
| GenSuspended (data : bytes)
| GenClosed.

(** How a call into the generator comes back. *)
Inductive outcome :=
| Yield (chunk : bytes)
| Return                 (* [StopIteration] *)
| Raise (e : exn).

Definition result : Type := outcome * generator * byte_source * list event.

Definition log (e : event) (r : result) : result :=
  let '(o, g, src, evs) := r in (o, g, src, e :: evs).

(** [finally: p.kill()] and then the exit of the [with] block. *)
Definition cleanup : list event := [EvKill; EvExit].

(** The inner [while True] from its top: a complete pair suspends the
    generator at the [yield]; [on_break] is the rest of the outer loop. *)
Definition inner_loop (data : bytes) (src : byte_source) (on_break : result)
    : result :=
  match scan_step data with
  | Some (frame, data') =>
      (Yield (multipart frame), GenSuspended data', src,
       [EvYield (multipart frame)])
  | None => on_break
  end.

(** The outer [while True] from its top, with the [try]/[finally] and the
    [with] block around it. *)
Fixpoint outer_loop (data : bytes) (src : byte_source) : result :=
  match src with
  | [] => (Return, GenClosed, [], EvRead 4096 data :: cleanup)
  | ReadError :: src' =>
      (Raise ReadFailure, GenClosed, src', EvRead 4096 data :: cleanup)
  | ReadBytes [] :: src' =>
      (Return, GenClosed, src', EvRead 4096 data :: cleanup)
  | ReadBytes chunk :: src' =>
      log (EvRead 4096 data)
          (inner_loop (data ++ chunk) src' (outer_loop (data ++ chunk) src'))
  end.

(** The environment of a request: the registry and whether the decoder
    program can be started. *)
Record env := { registry : database; ffmpeg_starts : bool }.

(** [next(gen)].  The query binds [stream_id]: outside the 64-bit range
    the bind raises [OverflowError].  No key of a table is outside that
    range, so such an id selects no row, and the case sits in the branch of
    the id that selects nothing. *)
Definition gen_next (w : env) (g : generator) (src : byte_source) : result :=
  match g with
  | GenCreated stream_id =>
      match one (select_stream (registry w) stream_id) with
      | None =>
          if int64 stream_id then (Return, GenClosed, src, [])
          else (Raise OverflowError, GenClosed, src, [])
      | Some (stream_url, quality, resolution, fps) =>
          if ffmpeg_starts w then
            log (EvPopen (command stream_url quality resolution fps))
                (outer_loop [] src)
          else (Raise LaunchError, GenClosed, src, [])
      end
  | GenSuspended data => inner_loop data src (outer_loop data src)
  | GenClosed => (Return, GenClosed, src, [])
  end.

(** [gen.close()]: [GeneratorExit] is raised at the [yield]. *)
Definition gen_close (g : generator) (src : byte_source) : result :=
  match g with
  | GenSuspended _ => (Return, GenClosed, src, cleanup)
  | _ => (Return, GenClosed, src, [])
  end.

(** [gen.throw(e)]: [e] is raised at the [yield]. *)
Definition gen_throw (e : exn) (g : generator) (src : byte_source) : result :=
  match g with
  | GenSuspended _ => (Raise e, GenClosed, src, cleanup)
  | _ => (Raise e, GenClosed, src, [])
  end.

(** A consumer, as the calls it makes. *)
Inductive action :=
| Next
| Close
| Throw (e : exn).

Definition gen_do (w : env) (a : action) : generator -> byte_source -> result :=
  match a with
  | Next => gen_next w
  | Close => gen_close
  | Throw e => gen_throw e
  end.

Fixpoint drive (w : env) (acts : list action) (g : generator)
    (src : byte_source) : generator * byte_source * list event :=
  match acts with
  | [] => (g, src, [])
  | a :: acts' =>
      let '(_, g', src', evs) := gen_do w a g src in
      let '(g'', src'', evs') := drive w acts' g' src' in
      (g'', src'', evs ++ evs')
  end.

Definition generate_frames (stream_id : Z) : generator := GenCreated stream_id.

(** ** The route [video_feed] (lines 156-169) *)

(** A Flask [Response]; [status] is the default of the class. *)
Record Response := {
  response : generator;
  status : Z;
  mimetype : string
}.

Definition default_status : Z := 200.

Definition video_feed (stream_id : Z) : Response :=
  {| response := generate_frames stream_id;
     status := default_status;
     mimetype := "multipart/x-mixed-replace; boundary=frame" |}.

Definition count_kill (evs : list event) : nat :=
  length (filter (fun e => match e with EvKill => true | _ => false end) evs).

Definition count_popen (evs : list event) : nat :=
  length (filter (fun e => match e with EvPopen _ => true | _ => false end) evs).

Definition count_read (evs : list event) : nat :=
  length (filter (fun e => match e with EvRead _ _ => true | _ => false end) evs).

Definition yields (evs : list event) : list bytes :=
  flat_map (fun e => match e with EvYield c => [c] | _ => [] end) evs.

(** ** Markers by position and spans *)

(** [sub] stands in [data] at offset [i]: [data[i:i+len(sub)] == sub]. *)
Definition occurs_at (sub data : bytes) (i : nat) : Prop :=
  firstn (length sub) (skipn i data) = sub.

(** No start marker of the buffer has an end marker after it. *)
Definition no_complete_pair (data : bytes) : Prop :=
  forall s e : nat,
    occurs_at SOI data s -> occurs_at EOI data e -> (s < e)%nat -> False.

(** A byte sequence that begins with a start marker and ends with an end
    marker. *)
Definition marked_span (span : bytes) : Prop :=
  firstn 2 span = SOI /\ skipn (length span - 2) span = EOI.

(** A marked span whose closing marker is the first end marker from its
    third byte on. *)
Definition tight_span (span : bytes) : Prop :=
  marked_span span /\
  forall j : nat, (2 <= j)%nat -> (j + 2 < length span)%nat ->
                  ~ occurs_at EOI span j.

(** The buffer as the frames cut from it, each after the bytes that are
    skipped before its start marker. *)
Fixpoint interleave (gaps frames : list bytes) : bytes :=
  match gaps, frames with
  | gap :: gaps', frame :: frames' => gap ++ frame ++ interleave gaps' frames'
  | _, _ => []
  end.

(** ** Reading executions *)

(** The generator resumed at the top of the inner loop, as [next] does on
    a suspended generator and as the outer loop does after [data += chunk]. *)
Definition resume (data : bytes) (src : byte_source) : result :=
  inner_loop data src (outer_loop data src).

Definition r_outcome (r : result) : outcome := let '(o, _, _, _) := r in o.
Definition r_gen (r : result) : generator := let '(_, g, _, _) := r in g.
Definition r_source (r : result) : byte_source :=
  let '(_, _, src, _) := r in src.
Definition r_events (r : result) : list event :=
  let '(_, _, _, evs) := r in evs.

(** [1] while the decoder process of the generator is running. *)
Definition alive (g : generator) : nat :=
  match g with
  | GenSuspended _ => 1
  | _ => 0
  end.

(** [1] while the generator can still start a process. *)
Definition unstarted (g : generator) : nat :=
  match g with
  | GenCreated _ => 1
  | _ => 0
  end.

(** The local [data] of a generator; a generator that has not started will
    start with [b""]. *)
Definition buffer_of (g : generator) : bytes :=
  match g with
  | GenSuspended data => data
  | _ => []
  end.

(** What the code guarantees of each event: a read happens on a buffer in
    which a pass of the scan finds no complete pair, a yield wraps a frame
    cut by a pass of the scan. *)
Definition event_ok (e : event) : Prop :=
  match e with
  | EvRead _ data => scan_step data = None
  | EvYield chunk =>
      exists data frame data',
        scan_step data = Some (frame, data') /\ chunk = multipart frame
  | _ => True
  end.

(** A response that tells the client of a failure (status 4xx or 5xx). *)
Definition is_failure (r : Response) : bool := 400 <=? status r.

(** A registry with one stream, for the executions evaluated below. *)
Definition demo_env : env :=
  {| registry := fst (add_stream "rtsp://camera/live" "5" "640x480" 15 []);
     ffmpeg_starts := true |}.

(** ** The rest of the registry (lines 85-99, 188-200, 211) *)

(** [remove_stream]: the table after [DELETE FROM streams WHERE id = ?].
    An id outside the 64-bit range is refused when it is bound and the
    statement does not run: the table stays as it is, as it does here, for
    it holds no such key. *)
Definition remove_stream (stream_id : Z) (db : database) : database :=
  filter (fun r => negb (row_id r =? stream_id)) db.

(** What an endpoint answers: [jsonify(success=True)], or the server error
    Flask makes of an exception that leaves the view. *)
Inductive answer :=
| Success
| ServerError (e : exn).

(** [remove_stream_endpoint]: the table after the call and the answer.  The
    [DELETE] binds the id of the route, any run of digits, and raises for
    one outside the 64-bit range. *)
Definition remove_stream_endpoint (stream_id : Z) (db : database)
    : database * answer :=
  if int64 stream_id then (remove_stream stream_id db, Success)
  else (db, ServerError OverflowError).

(** [SELECT * FROM streams], the rows [index] hands to its template, which
    shows [stream[0]] and [stream[1]] and links to [video_feed] with
    [stream_id=stream[0]]. *)
Definition select_all (db : database)
    : list (Z * string * Z * string * string * Z) :=
  map (fun r => (row_id r, row_url r, row_active r, row_quality r,
                 row_resolution r, row_fps r)) db.

(** The calls that change the table, as the two endpoints make them. *)
Inductive registry_op :=
| OpAdd (url quality resolution : string) (fps : Z)
| OpRemove (stream_id : Z).

Definition apply_op (db : database) (op : registry_op) : database :=
  match op with
  | OpAdd url quality resolution fps =>
      fst (add_stream url quality resolution fps db)
  | OpRemove stream_id => remove_stream stream_id db
  end.

(** The table after a history of calls. *)
Definition run_ops (ops : list registry_op) (db : database) : database :=
  fold_left apply_op ops db.

(** The keys of the table, in the order of its rows. *)
Definition ids (db : database) : list Z := map row_id db.

(** What every history of calls keeps: keys strictly increasing along the
    table, from [1] on, and every row active. *)
Definition registry_ok (db : database) : Prop :=
  StronglySorted Z.lt (ids db) /\
  Forall (fun r => 1 <= row_id r /\ row_active r = 1) db.

(** ** Sources that end *)

(** What follows the chunks of a source when the stream stops there: nothing,
    a read of zero bytes, or a read that raises. *)
Definition ends_stream (tail : byte_source) : bool :=
  match tail with
  | [] => true
  | ReadBytes [] :: _ => true
  | ReadError :: _ => true
  | ReadBytes (_ :: _) :: _ => false
  end.

(** How the call of [next] that meets the stop ends: the [break] of line
    140 and a normal return, or the exception of the read. *)
Definition stop_outcome (tail : byte_source) : outcome :=
  match tail with
  | ReadError :: _ => Raise ReadFailure
  | _ => Return
  end.

(** * Properties *)

(** ** Evaluation on small inputs *)

Example find_from_offset :
  find EOI [xff; xd8; xaa; xbb; xff; xd9] 2 = 4 /\
  find EOI [xff; xd9; xaa] 1 = -1 /\
  find SOI [xaa; xff] 0 = -1.
Proof. repeat split; reflexivity. Qed.

Example scan_step_cuts_first_frame :
  scan_step [x00; xff; xd8; xaa; xbb; xff; xd9; x01] =
  Some ([xff; xd8; xaa; xbb; xff; xd9], [x01]).
Proof. reflexivity. Qed.

Example drain_two_frames :
  drain [xff; xd8; xaa; xbb; xff; xd9; xff; xd8; xcc; xff; xd9] =
  ([[xff; xd8; xaa; xbb; xff; xd9]; [xff; xd8; xcc; xff; xd9]], []).
Proof. reflexivity. Qed.

Example str_decimal :
  str 15 = "15"%string /\ str 0 = "0"%string /\ str (-3) = "-3"%string.
Proof. repeat split; reflexivity. Qed.

(** ** Searching a pattern *)

Section Search.

Variable sub : bytes.

Lemma startswith_true_iff (data : bytes) :
  startswith sub data = true <-> firstn (length sub) data = sub.
Proof.
  revert data; induction sub as [|a sub' IH]; intros [|b data]; simpl;
    try (split; congruence).
  rewrite andb_true_iff, IH. split.
  - intros [Hab Hf]. apply Byte.byte_dec_bl in Hab. congruence.
  - intros Heq. injection Heq as Hb Hf. split; [|exact Hf].
    apply Byte.byte_dec_lb. congruence.
Qed.

Lemma startswith_length (data : bytes) :
  startswith sub data = true -> (length sub <= length data)%nat.
Proof.
  rewrite startswith_true_iff. intros H.
  rewrite <- H at 1. rewrite length_firstn. lia.
Qed.

Lemma startswith_app (data more : bytes) :
  (length sub <= length data)%nat ->
  startswith sub (data ++ more) = startswith sub data.
Proof.
  revert data; induction sub as [|a sub' IH]; intros [|b data] Hlen; simpl in *;
    try reflexivity; try lia.
  rewrite IH by lia. reflexivity.
Qed.

Lemma search_bound (data : bytes) (k : nat) :
  search sub data = Some k -> (k + length sub <= length data)%nat.
Proof.
  revert k; induction data as [|b data IH]; intros k; simpl.
  - destruct (startswith sub []) eqn:Hs; [|discriminate].
    intros [= <-]. apply startswith_length in Hs. simpl in *. lia.
  - destruct (startswith sub (b :: data)) eqn:Hs.
    + intros [= <-]. apply startswith_length in Hs. simpl in *. lia.
    + destruct (search sub data) as [k'|]; simpl; [|discriminate].
      intros [= <-]. specialize (IH k' eq_refl). lia.
Qed.

Lemma search_found (data : bytes) (k : nat) :
  search sub data = Some k -> startswith sub (skipn k data) = true.
Proof.
  revert k; induction data as [|b data IH]; intros k; simpl.
  - destruct (startswith sub []) eqn:Hs; [|discriminate].
    intros [= <-]. exact Hs.
  - destruct (startswith sub (b :: data)) eqn:Hs.
    + intros [= <-]. exact Hs.
    + destruct (search sub data) as [k'|]; simpl; [|discriminate].
      intros [= <-]. simpl. apply IH. reflexivity.
Qed.

Lemma search_first (data : bytes) (k j : nat) :
  search sub data = Some k -> (j < k)%nat ->
  startswith sub (skipn j data) = false.
Proof.
  revert k j; induction data as [|b data IH]; intros k j; simpl.
  - destruct (startswith sub []) eqn:Hs; [|discriminate].
    intros [= <-]. lia.
  - destruct (startswith sub (b :: data)) eqn:Hs.
    + intros [= <-]. lia.
    + destruct (search sub data) as [k'|]; simpl; [|discriminate].
      intros [= <-] Hj. destruct j as [|j]; simpl; [exact Hs|].
      apply (IH k'); [reflexivity | lia].
Qed.

Lemma search_none (data : bytes) (j : nat) :
  search sub data = None -> startswith sub (skipn j data) = false.
Proof.
  revert j; induction data as [|b data IH]; intros j; simpl.
  - destruct (startswith sub []) eqn:Hs; [discriminate|].
    intros _. destruct j; exact Hs.
  - destruct (startswith sub (b :: data)) eqn:Hs; [discriminate|].
    destruct (search sub data) as [k'|]; simpl; [discriminate|].
    intros _. destruct j as [|j]; simpl; [exact Hs|]. apply IH. reflexivity.
Qed.

Lemma search_least (data : bytes) (k : nat) :
  startswith sub (skipn k data) = true ->
  (forall j, (j < k)%nat -> startswith sub (skipn j data) = false) ->
  search sub data = Some k.
Proof.
  intros Hk Hlt. destruct (search sub data) as [k'|] eqn:Hs.
  - destruct (lt_eq_lt_dec k k') as [[Hlt'|Heq]|Hgt].
    + rewrite (search_first _ _ _ Hs Hlt') in Hk. discriminate.
    + congruence.
    + apply search_found in Hs. rewrite (Hlt _ Hgt) in Hs. discriminate.
  - rewrite (search_none _ k Hs) in Hk. discriminate.
Qed.

Lemma search_app (data more : bytes) (k : nat) :
  search sub data = Some k -> search sub (data ++ more) = Some k.
Proof.
  intros Hs. pose proof (search_bound _ _ Hs) as Hb.
  apply search_least.
  - rewrite skipn_app.
    replace (k - length data)%nat with 0%nat by lia. simpl.
    rewrite startswith_app; [apply search_found, Hs|].
    rewrite length_skipn. lia.
  - intros j Hj. rewrite skipn_app.
    replace (j - length data)%nat with 0%nat by lia. simpl.
    rewrite startswith_app; [apply (search_first _ _ _ Hs Hj)|].
    rewrite length_skipn. lia.
Qed.

Lemma find_from (data : bytes) (s : nat) :
  (s <= length data)%nat ->
  find sub data (Z.of_nat s) =
  match search sub (skipn s data) with
  | Some k => Z.of_nat (s + k)
  | None => -1
  end.
Proof.
  intros Hs. unfold find, len.
  destruct (Z.ltb_spec (Z.of_nat s) 0); [lia|].
  destruct (Z.ltb_spec (Z.of_nat (length data)) (Z.of_nat s)); [lia|].
  rewrite Nat2Z.id. destruct (search sub (skipn s data)); [|reflexivity].
  lia.
Qed.

End Search.

(** ** One pass of the boundary scan *)

(** The pass in terms of [search]: [s] is [start], [s + 2 + e] is [end]. *)
Lemma scan_step_search (data : bytes) :
  scan_step data =
  match search SOI data with
  | None => None
  | Some s =>
      match search EOI (skipn (s + 2) data) with
      | None => None
      | Some e =>
          Some (firstn (e + 4) (skipn s data), skipn (s + e + 4) data)
      end
  end.
Proof.
  unfold scan_step.
  change 0 with (Z.of_nat 0). rewrite find_from by lia.
  change (skipn 0 data) with data.
  destruct (search SOI data) as [s|] eqn:Hs; [|reflexivity].
  pose proof (search_bound _ _ _ Hs) as Hbs. simpl in Hbs.
  replace (Z.of_nat (0 + s) + 2) with (Z.of_nat (s + 2)) by lia.
  rewrite find_from by lia.
  destruct (search EOI (skipn (s + 2) data)) as [e|] eqn:He.
  - pose proof (search_bound _ _ _ He) as Hbe.
    rewrite length_skipn in Hbe. simpl in Hbe.
    destruct (Z.eqb_spec (Z.of_nat (0 + s)) (-1)); [lia|].
    destruct (Z.eqb_spec (Z.of_nat (s + 2 + e)) (-1)); [lia|].
    simpl negb. simpl andb. cbv iota.
    unfold slice, slice_from, clamp_index, len.
    destruct (Z.ltb_spec (Z.of_nat (0 + s)) 0); [lia|].
    destruct (Z.ltb_spec (Z.of_nat (s + 2 + e) + 2) 0); [lia|].
    rewrite !Z.min_l by lia.
    replace (Z.to_nat (Z.of_nat (s + 2 + e) + 2 - Z.of_nat (0 + s)))
      with (e + 4)%nat by lia.
    replace (Z.to_nat (Z.of_nat (0 + s))) with s by lia.
    replace (Z.to_nat (Z.of_nat (s + 2 + e) + 2)) with (s + e + 4)%nat by lia.
    reflexivity.
  - rewrite andb_false_r. reflexivity.
Qed.

(** A pass that yields splits the buffer into the bytes before the start
    marker, the frame and the new buffer; the frame runs from the first
    start marker to the first end marker found from [start + 2] on. *)
Lemma scan_step_yield (data frame rest : bytes) :
  scan_step data = Some (frame, rest) ->
  exists s e : nat,
    search SOI data = Some s /\
    search EOI (skipn (s + 2) data) = Some e /\
    data = firstn s data ++ frame ++ rest /\
    length frame = (e + 4)%nat /\
    firstn 2 frame = SOI /\
    skipn (e + 2) frame = EOI.
Proof.
  rewrite scan_step_search.
  destruct (search SOI data) as [s|] eqn:Hs; [|discriminate].
  destruct (search EOI (skipn (s + 2) data)) as [e|] eqn:He; [|discriminate].
  intros [= <- <-]. exists s, e.
  pose proof (search_bound _ _ _ Hs) as Hbs.
  pose proof (search_bound _ _ _ He) as Hbe.
  rewrite length_skipn in Hbe. simpl in Hbs, Hbe.
  pose proof (search_found _ _ _ Hs) as Hfs.
  pose proof (search_found _ _ _ He) as Hfe.
  rewrite startswith_true_iff in Hfs, Hfe. simpl length in Hfs, Hfe.
  rewrite skipn_skipn in Hfe.
  repeat split; try assumption.
  - replace (s + e + 4)%nat with ((e + 4) + s)%nat by lia.
    rewrite <- skipn_skipn. rewrite (firstn_skipn (e + 4)).
    symmetry. apply firstn_skipn.
  - rewrite length_firstn, length_skipn. lia.
  - rewrite firstn_firstn. replace (Nat.min 2 (e + 4)) with 2%nat by lia.
    exact Hfs.
  - rewrite <- Hfe.
    replace (e + 4)%nat with ((e + 2) + 2)%nat by lia.
    rewrite <- firstn_skipn_comm. rewrite skipn_skipn.
    f_equal. f_equal. lia.
Qed.

Lemma scan_step_shrinks (data frame rest : bytes) :
  scan_step data = Some (frame, rest) ->
  (length rest + 4 <= length data)%nat.
Proof.
  intros H. destruct (scan_step_yield _ _ _ H) as (s & e & _ & _ & Hd & Hl & _).
  apply (f_equal (@length byte)) in Hd. rewrite !length_app in Hd. lia.
Qed.

(** More bytes after the buffer do not change a pass that already yields. *)
Lemma scan_step_app (data more frame rest : bytes) :
  scan_step data = Some (frame, rest) ->
  scan_step (data ++ more) = Some (frame, rest ++ more).
Proof.
  rewrite !scan_step_search.
  destruct (search SOI data) as [s|] eqn:Hs; [|discriminate].
  destruct (search EOI (skipn (s + 2) data)) as [e|] eqn:He; [|discriminate].
  intros [= <- <-].
  pose proof (search_bound _ _ _ Hs) as Hbs.
  pose proof (search_bound _ _ _ He) as Hbe.
  rewrite length_skipn in Hbe. simpl in Hbs, Hbe.
  rewrite (search_app _ _ more _ Hs).
  rewrite skipn_app. replace (s + 2 - length data)%nat with 0%nat by lia.
  change (skipn 0 more) with more.
  rewrite (search_app _ _ more _ He).
  rewrite !skipn_app.
  replace (s - length data)%nat with 0%nat by lia.
  replace (s + e + 4 - length data)%nat with 0%nat by lia.
  change (skipn 0 more) with more.
  rewrite firstn_app, length_skipn.
  replace (e + 4 - (length data - s))%nat with 0%nat by lia.
  rewrite firstn_O, app_nil_r. reflexivity.
Qed.

(** ** The inner loop run to its [break] *)

Lemma scan_step_nil : scan_step [] = None.
Proof. reflexivity. Qed.

Lemma drain_fuel_stable (fuel1 fuel2 : nat) (data : bytes) :
  (length data <= fuel1)%nat -> (length data <= fuel2)%nat ->
  drain_fuel fuel1 data = drain_fuel fuel2 data.
Proof.
  revert fuel2 data; induction fuel1 as [|fuel1 IH]; intros fuel2 data H1 H2.
  - destruct data; [|simpl in H1; lia]. destruct fuel2; reflexivity.
  - destruct fuel2 as [|fuel2].
    + destruct data; [|simpl in H2; lia]. reflexivity.
    + simpl. destruct (scan_step data) as [[frame rest]|] eqn:Hs; [|reflexivity].
      apply scan_step_shrinks in Hs.
      rewrite (IH fuel2 rest) by lia. reflexivity.
Qed.

(** The loop equation: the fuel of [drain] never runs out. *)
Lemma drain_unfold (data : bytes) :
  drain data =
  match scan_step data with
  | Some (frame, data') =>
      let '(frames, rest) := drain data' in (frame :: frames, rest)
  | None => ([], data)
  end.
Proof.
  unfold drain. destruct data as [|b data]; [reflexivity|].
  simpl drain_fuel.
  destruct (scan_step (b :: data)) as [[frame rest]|] eqn:Hs; [|reflexivity].
  apply scan_step_shrinks in Hs. simpl in Hs.
  rewrite (drain_fuel_stable (length data) (length rest) rest) by lia.
  reflexivity.
Qed.

(** Induction along the passes of the inner loop. *)
Lemma drain_ind (P : bytes -> list bytes -> bytes -> Prop) :
  (forall data, scan_step data = None -> P data [] data) ->
  (forall data frame data' frames rest,
      scan_step data = Some (frame, data') ->
      drain data' = (frames, rest) ->
      P data' frames rest -> P data (frame :: frames) rest) ->
  forall data, P data (fst (drain data)) (snd (drain data)).
Proof.
  intros Hbreak Hyield data.
  remember (length data) as n eqn:Hn.
  revert data Hn. induction n as [n IH] using lt_wf_ind. intros data ->.
  rewrite drain_unfold.
  destruct (scan_step data) as [[frame data']|] eqn:Hs.
  - pose proof (scan_step_shrinks _ _ _ Hs) as Hlt.
    specialize (IH (length data') ltac:(lia) data' eq_refl).
    destruct (drain data') as [frames rest] eqn:Hd. simpl in *.
    eapply Hyield; eauto.
  - simpl. apply Hbreak, Hs.
Qed.

(** The loop is left through its [break]: no complete pair remains. *)
Lemma drain_exits (data : bytes) : scan_step (snd (drain data)) = None.
Proof.
  apply (drain_ind (fun _ _ rest => scan_step rest = None)); auto.
Qed.

Lemma drain_break (data : bytes) :
  scan_step data = None -> drain data = ([], data).
Proof. intros H. rewrite drain_unfold, H. reflexivity. Qed.

(** Bytes that arrive later do not change the frames already cut. *)
Lemma drain_app (data more : bytes) :
  drain (data ++ more) =
  let '(frames, rest) := drain data in
  let '(frames', rest') := drain (rest ++ more) in
  (frames ++ frames', rest').
Proof.
  assert (H : forall d,
    (fun d frames rest =>
       drain (d ++ more) =
       let '(frames', rest') := drain (rest ++ more) in
       (frames ++ frames', rest')) d (fst (drain d)) (snd (drain d))).
  { apply (drain_ind (fun d frames rest =>
       drain (d ++ more) =
       let '(frames', rest') := drain (rest ++ more) in
       (frames ++ frames', rest'))).
    - intros d _. simpl. destruct (drain (d ++ more)); reflexivity.
    - intros d frame d' frames0 rest0 Hs Hd' IH.
      rewrite drain_unfold, (scan_step_app _ more _ _ Hs), IH.
      destruct (drain (rest0 ++ more)). reflexivity. }
  specialize (H data). destruct (drain data) as [frames rest]. exact H.
Qed.

Lemma feed_all_drain (chunks : list bytes) (data : bytes) :
  scan_step data = None ->
  feed_all data chunks = drain (data ++ concat chunks).
Proof.
  revert data; induction chunks as [|chunk chunks IH]; intros data Hs; simpl.
  - rewrite app_nil_r, drain_break by assumption. reflexivity.
  - unfold feed. rewrite app_assoc, (drain_app (data ++ chunk) (concat chunks)).
    pose proof (drain_exits (data ++ chunk)) as He.
    destruct (drain (data ++ chunk)) as [frames data'].
    rewrite (IH data' He). reflexivity.
Qed.

Lemma occurs_at_startswith (sub data : bytes) (i : nat) :
  occurs_at sub data i <-> startswith sub (skipn i data) = true.
Proof. unfold occurs_at. symmetry. apply startswith_true_iff. Qed.

(** The two markers share their first byte only: an end marker cannot sit
    one byte after a start marker. *)
Lemma end_marker_not_inside (data : bytes) (s : nat) :
  occurs_at SOI data s -> occurs_at EOI data (S s) -> False.
Proof.
  unfold occurs_at. change (S s) with (1 + s)%nat.
  rewrite <- skipn_skipn.
  destruct (skipn s data) as [|a [|b [|c l]]]; simpl; intros H1 H2;
    try discriminate.
  injection H1 as -> ->. discriminate.
Qed.

Lemma search_occurs (sub data : bytes) (k : nat) :
  search sub data = Some k -> occurs_at sub data k.
Proof. intros H. apply occurs_at_startswith, search_found, H. Qed.

(** The inner loop breaks exactly on the buffers without a complete pair. *)
Lemma scan_step_None_iff (data : bytes) :
  scan_step data = None <-> no_complete_pair data.
Proof.
  rewrite scan_step_search. split.
  - intros H s e Hs He Hlt.
    apply occurs_at_startswith in Hs. apply occurs_at_startswith in He.
    destruct (search SOI data) as [s0|] eqn:Hs0.
    + destruct (search EOI (skipn (s0 + 2) data)) as [e0|] eqn:He0;
        [discriminate|].
      assert (s0 <= s)%nat.
      { destruct (le_lt_dec s0 s) as [|Hgt]; [assumption|].
        rewrite (search_first _ _ _ _ Hs0 Hgt) in Hs. discriminate. }
      assert (e <> S s).
      { intros ->. eapply end_marker_not_inside; apply occurs_at_startswith; eauto. }
      pose proof (search_none _ _ (e - (s0 + 2)) He0) as Hn.
      rewrite skipn_skipn in Hn.
      replace (e - (s0 + 2) + (s0 + 2))%nat with e in Hn by lia.
      congruence.
    + rewrite (search_none _ _ s Hs0) in Hs. discriminate.
  - intros H.
    destruct (search SOI data) as [s0|] eqn:Hs0; [|reflexivity].
    destruct (search EOI (skipn (s0 + 2) data)) as [e0|] eqn:He0;
      [|reflexivity].
    exfalso. apply (H s0 (e0 + (s0 + 2))%nat).
    + apply search_occurs, Hs0.
    + apply search_occurs in He0. unfold occurs_at in *.
      rewrite skipn_skipn in He0. exact He0.
    + lia.
Qed.

Lemma marked_span_length (span : bytes) :
  marked_span span -> (4 <= length span)%nat.
Proof.
  intros [H1 H2].
  unfold SOI, EOI in *.
  destruct span as [|a [|b [|c [|d l]]]]; simpl in *; try congruence; lia.
Qed.

Lemma scan_step_tight_span (span more : bytes) :
  tight_span span -> scan_step (span ++ more) = Some (span, more).
Proof.
  intros [Hm Ht]. pose proof (marked_span_length _ Hm) as Hl.
  destruct Hm as [Hb He].
  rewrite scan_step_search.
  assert (Hs : search SOI (span ++ more) = Some 0%nat).
  { apply search_least; [|intros j Hj; lia]. simpl skipn.
    rewrite startswith_app by (simpl; lia).
    apply startswith_true_iff. exact Hb. }
  rewrite Hs.
  assert (Hse : search EOI (skipn 2 (span ++ more)) = Some (length span - 4)%nat).
  { rewrite skipn_app. replace (2 - length span)%nat with 0%nat by lia.
    simpl skipn at 2. apply search_app. apply search_least.
    - rewrite skipn_skipn.
      replace (length span - 4 + 2)%nat with (length span - 2)%nat by lia.
      apply startswith_true_iff. rewrite He. reflexivity.
    - intros j Hj. rewrite skipn_skipn.
      destruct (startswith EOI (skipn (j + 2) span)) eqn:Hsw; [|reflexivity].
      exfalso. apply (Ht (j + 2)%nat); [lia|lia|].
      apply occurs_at_startswith. exact Hsw. }
  change (0 + 2)%nat with 2%nat. rewrite Hse.
  change (skipn 0 (span ++ more)) with (span ++ more).
  replace (0 + (length span - 4) + 4)%nat with (length span) by lia.
  replace (length span - 4 + 4)%nat with (length span) by lia.
  rewrite firstn_app, Nat.sub_diag, firstn_O, app_nil_r, firstn_all.
  rewrite skipn_app, Nat.sub_diag, skipn_all. reflexivity.
Qed.

Lemma drain_tight_spans (spans : list bytes) :
  Forall tight_span spans -> drain (concat spans) = (spans, []).
Proof.
  induction 1 as [|span spans Hspan _ IH]; simpl.
  - reflexivity.
  - rewrite drain_unfold, (scan_step_tight_span _ _ Hspan), IH. reflexivity.
Qed.

(** ** The frame of a pass, by its indices *)

Lemma scan_step_frame (data frame rest : bytes) :
  scan_step data = Some (frame, rest) ->
  let start := find SOI data 0 in
  let end_ := find EOI data (start + 2) in
  0 <= start /\ start + 2 <= end_ /\
  frame = slice data start (end_ + 2) /\
  firstn 2 frame = SOI /\
  skipn (length frame - 2) frame = EOI /\
  (4 <= length frame)%nat.
Proof.
  intros H.
  destruct (scan_step_yield _ _ _ H) as (s & e & Hs & He & _ & Hl & Hb & Hend).
  pose proof (search_bound _ _ _ Hs) as Hbs. simpl in Hbs.
  assert (Hstart : find SOI data 0 = Z.of_nat s).
  { change 0 with (Z.of_nat 0). rewrite find_from by lia.
    change (skipn 0 data) with data. rewrite Hs. reflexivity. }
  assert (Hend' : find EOI data (Z.of_nat s + 2) = Z.of_nat (s + 2 + e)).
  { replace (Z.of_nat s + 2) with (Z.of_nat (s + 2)) by lia.
    rewrite find_from by lia. rewrite He. reflexivity. }
  cbv zeta. unfold scan_step in H. rewrite Hstart, Hend' in H |- *.
  destruct (negb _ && negb _); [|discriminate]. injection H as <- _.
  repeat split; try lia; try assumption.
  rewrite Hl. replace (e + 4 - 2)%nat with (e + 2)%nat by lia. exact Hend.
Qed.

(** ** The buffer at a read *)

(** A buffer without a complete pair is bytes without a start marker
    followed by nothing, or by a start marker and bytes without an end
    marker. *)
Lemma no_complete_pair_shape (data : bytes) :
  no_complete_pair data ->
  exists junk partial : bytes,
    data = junk ++ partial /\
    (forall i : nat, ~ occurs_at SOI junk i) /\
    (partial = [] \/
     (firstn 2 partial = SOI /\ forall j : nat, ~ occurs_at EOI partial j)).
Proof.
  intros Hno. destruct (search SOI data) as [s|] eqn:Hs.
  - exists (firstn s data), (skipn s data).
    pose proof (search_bound _ _ _ Hs) as Hb. simpl in Hb.
    pose proof (search_occurs _ _ _ Hs) as Hocc.
    split; [symmetry; apply firstn_skipn|]. split.
    + intros i Hi. unfold occurs_at in Hi. simpl length in Hi.
      rewrite skipn_firstn_comm, firstn_firstn in Hi.
      destruct (le_lt_dec (i + 2) s) as [Hle|Hgt].
      * replace (Nat.min 2 (s - i)) with 2%nat in Hi by lia.
        assert (Hlt : (i < s)%nat) by lia.
        pose proof (search_first _ _ _ _ Hs Hlt) as Hf.
        apply (proj1 (occurs_at_startswith SOI data i)) in Hi. congruence.
      * apply (f_equal (@length byte)) in Hi.
        rewrite length_firstn, length_skipn in Hi.
        change (length SOI) with 2%nat in Hi. lia.
    + right. split; [exact Hocc|].
      intros j Hj. unfold occurs_at in Hj, Hocc. rewrite skipn_skipn in Hj.
      destruct j as [|j].
      * simpl in Hj, Hocc. rewrite Hocc in Hj. discriminate Hj.
      * apply (Hno s (S j + s)%nat); [exact Hocc | exact Hj | lia].
  - exists data, []. split; [symmetry; apply app_nil_r|]. split; [|left; reflexivity].
    intros i Hi. apply occurs_at_startswith in Hi.
    rewrite (search_none _ _ i Hs) in Hi. discriminate.
Qed.

(** ** The registry and the command *)

Lemma next_rowid_above (db : database) (r : stream_row) :
  In r db -> row_id r < next_rowid db.
Proof.
  unfold next_rowid. induction db as [|r' db IH]; simpl; [contradiction|].
  intros [->|Hin]; [lia|]. specialize (IH Hin). lia.
Qed.

Lemma add_stream_stored (url quality resolution : string) (fps : Z)
    (db : database) :
  int64 fps = true ->
  add_stream url quality resolution fps db =
  (db ++ [{| row_id := next_rowid db; row_url := url; row_active := 1;
             row_quality := quality; row_resolution := resolution;
             row_fps := fps |}], None).
Proof. intros Hfps. unfold add_stream. rewrite Hfps. reflexivity. Qed.

Lemma add_stream_refused (url quality resolution : string) (fps : Z)
    (db : database) :
  int64 fps = false ->
  add_stream url quality resolution fps db = (db, Some OverflowError).
Proof. intros Hfps. unfold add_stream. rewrite Hfps. reflexivity. Qed.


Lemma select_stream_unknown (db : database) (stream_id : Z) :
  (forall r, In r db -> row_id r <> stream_id) ->
  select_stream db stream_id = [].
Proof.
  unfold select_stream. induction db as [|r db IH]; intros Hno; [reflexivity|].
  simpl. destruct (Z.eqb_spec (row_id r) stream_id) as [Heq|_].
  - exfalso. exact (Hno r (or_introl eq_refl) Heq).
  - apply IH. intros r' Hin. apply Hno. right. exact Hin.
Qed.

(** ** The generator, call by call *)

(** Counting events in a concrete prefix of a trace. *)
Ltac count_simpl :=
  unfold count_kill, count_popen, count_read, cleanup in *; simpl in *.

Section Executions.

Variable w : env.

Lemma gen_next_suspended (data : bytes) (src : byte_source) :
  gen_next w (GenSuspended data) src = resume data src.
Proof. reflexivity. Qed.

Lemma outer_loop_chunk (data : bytes) (b : byte) (chunk : bytes)
    (src : byte_source) :
  outer_loop data (ReadBytes (b :: chunk) :: src) =
  log (EvRead 4096 data) (resume (data ++ b :: chunk) src).
Proof. reflexivity. Qed.

Lemma resume_yield (data frame data' : bytes) (src : byte_source) :
  scan_step data = Some (frame, data') ->
  resume data src =
  (Yield (multipart frame), GenSuspended data', src,
   [EvYield (multipart frame)]).
Proof. intros H. unfold resume, inner_loop. rewrite H. reflexivity. Qed.

Lemma resume_break (data : bytes) (src : byte_source) :
  scan_step data = None -> resume data src = outer_loop data src.
Proof. intros H. unfold resume, inner_loop. rewrite H. reflexivity. Qed.

(** Case analysis and induction along one call of [next]. *)
Lemma resume_ind (P : bytes -> byte_source -> result -> Prop) :
  (forall data src frame data',
      scan_step data = Some (frame, data') ->
      P data src (Yield (multipart frame), GenSuspended data', src,
                  [EvYield (multipart frame)])) ->
  (forall data,
      scan_step data = None ->
      P data [] (Return, GenClosed, [], EvRead 4096 data :: cleanup)) ->
  (forall data src,
      scan_step data = None ->
      P data (ReadError :: src)
        (Raise ReadFailure, GenClosed, src, EvRead 4096 data :: cleanup)) ->
  (forall data src,
      scan_step data = None ->
      P data (ReadBytes [] :: src)
        (Return, GenClosed, src, EvRead 4096 data :: cleanup)) ->
  (forall data b chunk src,
      scan_step data = None ->
      P (data ++ b :: chunk) src (resume (data ++ b :: chunk) src) ->
      P data (ReadBytes (b :: chunk) :: src)
        (log (EvRead 4096 data) (resume (data ++ b :: chunk) src))) ->
  forall data src, P data src (resume data src).
Proof.
  intros Hyield Hend Herr Hzero Hchunk data src.
  revert data; induction src as [|r src IH]; intros data;
    destruct (scan_step data) as [[frame data']|] eqn:Hs;
    try (rewrite (resume_yield _ _ _ _ Hs); apply Hyield; exact Hs);
    rewrite (resume_break _ _ Hs).
  - apply Hend, Hs.
  - destruct r as [[|b chunk]|].
    + apply Hzero, Hs.
    + rewrite outer_loop_chunk. apply Hchunk; [exact Hs | apply IH].
    + apply Herr, Hs.
Qed.

Lemma r_events_log (e : event) (r : result) :
  r_events (log e r) = e :: r_events r.
Proof. destruct r as [[[o g] src] evs]. reflexivity. Qed.

Lemma r_gen_log (e : event) (r : result) : r_gen (log e r) = r_gen r.
Proof. destruct r as [[[o g] src] evs]. reflexivity. Qed.

Lemma r_source_log (e : event) (r : result) : r_source (log e r) = r_source r.
Proof. destruct r as [[[o g] src] evs]. reflexivity. Qed.

Lemma count_kill_app (evs evs' : list event) :
  count_kill (evs ++ evs') = (count_kill evs + count_kill evs')%nat.
Proof. unfold count_kill. rewrite filter_app, length_app. reflexivity. Qed.

Lemma count_popen_app (evs evs' : list event) :
  count_popen (evs ++ evs') = (count_popen evs + count_popen evs')%nat.
Proof. unfold count_popen. rewrite filter_app, length_app. reflexivity. Qed.

Lemma count_read_app (evs evs' : list event) :
  count_read (evs ++ evs') = (count_read evs + count_read evs')%nat.
Proof. unfold count_read. rewrite filter_app, length_app. reflexivity. Qed.

(** The drive of a consumer, one call after the other. *)
Lemma drive_cons (a : action) (acts : list action) (g : generator)
    (src : byte_source) :
  drive w (a :: acts) g src =
  let r := gen_do w a g src in
  let '(g', src', evs') := drive w acts (r_gen r) (r_source r) in
  (g', src', r_events r ++ evs').
Proof. simpl. destruct (gen_do w a g src) as [[[o g'] src'] evs]. reflexivity. Qed.

Lemma drive_closed (acts : list action) (src : byte_source) :
  drive w acts GenClosed src = (GenClosed, src, []).
Proof.
  induction acts as [|a acts IH]; [reflexivity|].
  rewrite drive_cons. destruct a; simpl; rewrite IH; reflexivity.
Qed.

Lemma drive_app (acts acts' : list action) (g : generator)
    (src : byte_source) :
  drive w (acts ++ acts') g src =
  let '(g1, src1, evs1) := drive w acts g src in
  let '(g2, src2, evs2) := drive w acts' g1 src1 in
  (g2, src2, evs1 ++ evs2).
Proof.
  revert g src; induction acts as [|a acts IH]; intros g src.
  - simpl. destruct (drive w acts' g src) as [[g2 src2] evs2]. reflexivity.
  - rewrite <- app_comm_cons, !drive_cons. cbv zeta. rewrite IH.
    destruct (drive w acts _ _) as [[g1 src1] evs1].
    destruct (drive w acts' g1 src1) as [[g2 src2] evs2].
    rewrite app_assoc. reflexivity.
Qed.

(** ** Processes started and killed *)

Lemma resume_account (data : bytes) (src : byte_source) :
  let r := resume data src in
  count_popen (r_events r) = 0%nat /\
  (count_kill (r_events r) + alive (r_gen r) = 1)%nat /\
  unstarted (r_gen r) = 0%nat.
Proof.
  apply (resume_ind (fun _ _ r =>
    count_popen (r_events r) = 0%nat /\
    (count_kill (r_events r) + alive (r_gen r) = 1)%nat /\
    unstarted (r_gen r) = 0%nat)); intros;
    rewrite ?r_events_log, ?r_gen_log; count_simpl; auto.
Qed.

Lemma gen_next_created (stream_id : Z) (src : byte_source) :
  gen_next w (GenCreated stream_id) src =
  match one (select_stream (registry w) stream_id) with
  | None =>
      if int64 stream_id then (Return, GenClosed, src, [])
      else (Raise OverflowError, GenClosed, src, [])
  | Some (stream_url, quality, resolution, fps) =>
      if ffmpeg_starts w then
        log (EvPopen (command stream_url quality resolution fps))
            (resume [] src)
      else (Raise LaunchError, GenClosed, src, [])
  end.
Proof. rewrite (resume_break [] src scan_step_nil). reflexivity. Qed.

(** The query binds the id before it runs.  On a table whose keys are
    within the 64-bit range, as the keys of every table of SQLite are, the
    first [next] is the same with the test of the id made first. *)
Lemma gen_next_binds_first (stream_id : Z) (src : byte_source) :
  Forall (fun r => int64 (row_id r) = true) (registry w) ->
  gen_next w (GenCreated stream_id) src =
  if int64 stream_id then
    match one (select_stream (registry w) stream_id) with
    | None => (Return, GenClosed, src, [])
    | Some (stream_url, quality, resolution, fps) =>
        if ffmpeg_starts w then
          log (EvPopen (command stream_url quality resolution fps))
              (outer_loop [] src)
        else (Raise LaunchError, GenClosed, src, [])
    end
  else (Raise OverflowError, GenClosed, src, []).
Proof.
  intros Hkeys. destruct (int64 stream_id) eqn:Hid.
  - unfold gen_next. destruct (one _) as [[[[u q] res] f]|];
      [reflexivity|]. rewrite Hid. reflexivity.
  - unfold gen_next. rewrite select_stream_unknown.
    + simpl. rewrite Hid. reflexivity.
    + rewrite Forall_forall in Hkeys. intros r Hin Heq.
      specialize (Hkeys r Hin). congruence.
Qed.

Lemma gen_do_account (a : action) (g : generator)
    (src : byte_source) :
  let r := gen_do w a g src in
  (count_kill (r_events r) + alive (r_gen r)
   = count_popen (r_events r) + alive g)%nat /\
  (count_popen (r_events r) <= unstarted g)%nat /\
  unstarted (r_gen r) = 0%nat.
Proof.
  destruct a, g; try (count_simpl; auto; fail); unfold gen_do.
  - rewrite gen_next_created.
    destruct (one _) as [[[[u q] res] f]|];
      [|destruct (int64 stream_id); count_simpl; auto].
    destruct (ffmpeg_starts w); [|count_simpl; auto].
    cbv zeta. rewrite r_events_log, r_gen_log.
    destruct (resume_account [] src) as (Hp & Hk & Hu).
    count_simpl. lia.
  - rewrite gen_next_suspended.
    destruct (resume_account data src) as (Hp & Hk & Hu).
    cbv zeta. simpl alive. simpl unstarted. lia.
Qed.

Lemma drive_account (acts : list action) (g : generator)
    (src : byte_source) :
  let '(g', _, evs) := drive w acts g src in
  (count_kill evs + alive g' = count_popen evs + alive g)%nat /\
  (count_popen evs <= unstarted g)%nat /\
  (unstarted g' <= unstarted g)%nat.
Proof.
  revert g src; induction acts as [|a acts IH]; intros g src.
  - count_simpl. lia.
  - rewrite drive_cons. cbv zeta.
    pose proof (gen_do_account a g src) as (Hk & Hp & Hu).
    specialize (IH (r_gen (gen_do w a g src)) (r_source (gen_do w a g src))).
    destruct (drive w acts _ _) as [[g' src'] evs'].
    rewrite count_kill_app, count_popen_app. lia.
Qed.

(** A generator that has started a process and is finished has run the
    [finally] clause and left the [with] block as the last thing it did. *)
Lemma resume_closing (data : bytes) (src : byte_source) :
  let r := resume data src in
  r_gen r = GenClosed ->
  exists pre, r_events r = pre ++ cleanup /\ count_kill pre = 0%nat.
Proof.
  apply (resume_ind (fun _ _ r =>
    r_gen r = GenClosed ->
    exists pre, r_events r = pre ++ cleanup /\ count_kill pre = 0%nat));
    intros; simpl in *; try discriminate;
    try (exists [EvRead 4096 data0]; split; reflexivity).
  rewrite r_gen_log in H1. destruct (H0 H1) as (pre & Hpre & Hk).
  exists (EvRead 4096 data0 :: pre). rewrite r_events_log, Hpre.
  split; [reflexivity | exact Hk].
Qed.

Lemma gen_do_closing (a : action) (g : generator)
    (src : byte_source) :
  let r := gen_do w a g src in
  r_gen r = GenClosed ->
  (alive g = 1 \/ count_popen (r_events r) = 1)%nat ->
  exists pre, r_events r = pre ++ cleanup /\ count_kill pre = 0%nat.
Proof.
  destruct a, g; unfold gen_do; cbv zeta;
    try (simpl; intros _ [H|H]; try discriminate;
         exists []; split; reflexivity).
  - rewrite gen_next_created.
    destruct (one _) as [[[[u q] res] f]|];
      [|destruct (int64 stream_id); simpl; intros _ [H|H]; discriminate].
    destruct (ffmpeg_starts w); [|simpl; intros _ [H|H]; discriminate].
    rewrite r_gen_log, r_events_log. intros Hc _.
    destruct (resume_closing [] src Hc) as (pre & Hpre & Hk).
    exists (EvPopen (command u q res f) :: pre). rewrite Hpre.
    split; [reflexivity | exact Hk].
  - rewrite gen_next_suspended. intros Hc _. apply resume_closing, Hc.
Qed.

Lemma drive_closing (acts : list action) (g : generator)
    (src : byte_source) :
  let '(g', _, evs) := drive w acts g src in
  g' = GenClosed ->
  (alive g = 1 \/ count_popen evs = 1)%nat ->
  exists pre, evs = pre ++ cleanup /\ count_kill pre = 0%nat.
Proof.
  revert g src; induction acts as [|a acts IH]; intros g src.
  - simpl. intros -> [H|H]; discriminate.
  - rewrite drive_cons. cbv zeta.
    pose proof (gen_do_account a g src) as (Hk & Hp & Hu).
    pose proof (gen_do_closing a g src) as Hcl.
    cbv zeta in Hk, Hp, Hu, Hcl.
    specialize (IH (r_gen (gen_do w a g src)) (r_source (gen_do w a g src))).
    destruct (r_gen (gen_do w a g src)) as [id|d|] eqn:Hg;
      [discriminate| |].
    + destruct (drive w acts (GenSuspended d) _) as [[g' src'] evs'].
      intros Hc _. destruct (IH Hc (or_introl eq_refl)) as (pre & Hpre & Hk').
      exists (r_events (gen_do w a g src) ++ pre).
      rewrite Hpre, app_assoc, count_kill_app. split; [reflexivity|].
      simpl in Hk. destruct g; simpl in *; lia.
    + rewrite drive_closed, app_nil_r. intros _ Hor. apply Hcl; [reflexivity|].
      exact Hor.
Qed.

(** ** Every event of every execution *)

Lemma resume_events_ok (data : bytes) (src : byte_source) :
  Forall event_ok (r_events (resume data src)).
Proof.
  apply (resume_ind (fun _ _ r => Forall event_ok (r_events r))); intros;
    rewrite ?r_events_log; simpl; repeat constructor; simpl; eauto.
Qed.

Lemma gen_do_events_ok (a : action) (g : generator)
    (src : byte_source) :
  Forall event_ok (r_events (gen_do w a g src)).
Proof.
  destruct a, g; unfold gen_do;
    try (simpl; repeat constructor; fail).
  - rewrite gen_next_created.
    destruct (one _) as [[[[u q] res] f]|];
      [|destruct (int64 stream_id); constructor].
    destruct (ffmpeg_starts w); [|constructor].
    rewrite r_events_log. constructor; [exact I | apply resume_events_ok].
  - rewrite gen_next_suspended. apply resume_events_ok.
Qed.

Lemma drive_events_ok (acts : list action) (g : generator)
    (src : byte_source) :
  let '(_, _, evs) := drive w acts g src in Forall event_ok evs.
Proof.
  revert g src; induction acts as [|a acts IH]; intros g src.
  - constructor.
  - rewrite drive_cons. cbv zeta.
    specialize (IH (r_gen (gen_do w a g src)) (r_source (gen_do w a g src))).
    destruct (drive w acts _ _) as [[g' src'] evs'].
    apply Forall_app. split; [apply gen_do_events_ok | exact IH].
Qed.

(** ** The chunks a consumer receives *)

Lemma yields_app (evs evs' : list event) :
  yields (evs ++ evs') = yields evs ++ yields evs'.
Proof. apply flat_map_app. Qed.

Lemma yields_drive_cons (a : action) (acts : list action) (g : generator)
    (src : byte_source) :
  yields (snd (drive w (a :: acts) g src)) =
  yields (r_events (gen_do w a g src)) ++
  yields (snd (drive w acts (r_gen (gen_do w a g src))
                           (r_source (gen_do w a g src)))).
Proof.
  rewrite drive_cons. cbv zeta.
  destruct (drive w acts _ _) as [[g' src'] evs']. simpl.
  apply yields_app.
Qed.

(** With a source that delivers the chunks and then ends, [n] calls of
    [next] yield the first [n] frames of the concatenated bytes. *)
Lemma yields_suspended (chunks : list bytes) :
  Forall (fun chunk => chunk <> []) chunks ->
  forall (data : bytes) (n : nat),
    yields (snd (drive w (repeat Next n) (GenSuspended data)
                   (map ReadBytes chunks))) =
    firstn n (map multipart (fst (drain (data ++ concat chunks)))).
Proof.
  induction 1 as [|chunk chunks Hne _ IH]; intros data.
  - simpl concat. simpl map. rewrite app_nil_r.
    apply (drain_ind (fun data frames _ => forall n,
      yields (snd (drive w (repeat Next n) (GenSuspended data) [])) =
      firstn n (map multipart frames))).
    + intros d Hs [|n]; [reflexivity|].
      simpl repeat. rewrite yields_drive_cons.
      change (gen_do w Next (GenSuspended d) []) with (resume d []).
      rewrite (resume_break _ _ Hs). simpl. rewrite drive_closed. reflexivity.
    + intros d frame d' frames rest Hs _ IHd [|n]; [reflexivity|].
      simpl repeat. rewrite yields_drive_cons.
      change (gen_do w Next (GenSuspended d) []) with (resume d []).
      rewrite (resume_yield _ _ _ _ Hs). cbn [r_events r_gen r_source].
      rewrite (IHd n). reflexivity.
  - simpl concat. simpl map.
    remember (length data) as m eqn:Hm. revert data Hm.
    induction m as [m IHm] using lt_wf_ind. intros data -> [|n];
      [reflexivity|].
    simpl repeat. rewrite yields_drive_cons.
    change (gen_do w Next (GenSuspended data)
              (ReadBytes chunk :: map ReadBytes chunks))
      with (resume data (ReadBytes chunk :: map ReadBytes chunks)).
    destruct (scan_step data) as [[frame d']|] eqn:Hs.
    + rewrite (resume_yield _ _ _ _ Hs).
      rewrite drain_unfold, (scan_step_app _ (chunk ++ concat chunks) _ _ Hs).
      pose proof (scan_step_shrinks _ _ _ Hs) as Hlt.
      specialize (IHm (length d') ltac:(lia) d' eq_refl n).
      cbn [r_events r_gen r_source]. simpl yields at 1.
      simpl map in IHm. rewrite IHm.
      destruct (drain (d' ++ chunk ++ concat chunks)). reflexivity.
    + rewrite (resume_break _ _ Hs).
      destruct chunk as [|b chunk]; [contradiction|].
      rewrite outer_loop_chunk, r_events_log, r_gen_log, r_source_log.
      specialize (IH (data ++ b :: chunk) (S n)).
      simpl repeat in IH. rewrite yields_drive_cons in IH.
      change (gen_do w Next (GenSuspended (data ++ b :: chunk))
                (map ReadBytes chunks))
        with (resume (data ++ b :: chunk) (map ReadBytes chunks)) in IH.
      rewrite <- app_assoc in IH. exact IH.
Qed.

Lemma yields_created (n : nat) (stream_id : Z) (src : byte_source) :
  yields (snd (drive w (repeat Next n) (generate_frames stream_id) src)) =
  match one (select_stream (registry w) stream_id) with
  | None => []
  | Some _ =>
      if ffmpeg_starts w
      then yields (snd (drive w (repeat Next n) (GenSuspended []) src))
      else []
  end.
Proof.
  destruct n as [|n].
  - simpl. destruct (one _); [|reflexivity].
    destruct (ffmpeg_starts w); reflexivity.
  - simpl repeat. rewrite !yields_drive_cons.
    change (gen_do w Next (generate_frames stream_id) src)
      with (gen_next w (GenCreated stream_id) src).
    change (gen_do w Next (GenSuspended []) src) with (resume [] src).
    rewrite gen_next_created.
    destruct (one _) as [[[[u q] res] f]|];
      [|destruct (int64 stream_id); simpl; rewrite drive_closed;
        reflexivity].
    destruct (ffmpeg_starts w); [|simpl; rewrite drive_closed; reflexivity].
    rewrite r_events_log, r_gen_log, r_source_log. reflexivity.
Qed.

Lemma concat_nonempty (chunks : list bytes) :
  Forall (fun chunk => chunk <> []) chunks -> chunks <> [] ->
  concat chunks <> [].
Proof.
  intros H Hne. destruct H as [|chunk chunks Hc _]; [contradiction|].
  simpl. destruct chunk; [contradiction|discriminate].
Qed.

Lemma yields_chunking (n : nat) (stream_id : Z) (chunks : list bytes) :
  Forall (fun chunk => chunk <> []) chunks ->
  yields (snd (drive w (repeat Next n) (generate_frames stream_id)
                 (map ReadBytes chunks))) =
  yields (snd (drive w (repeat Next n) (generate_frames stream_id)
                 [ReadBytes (concat chunks)])).
Proof.
  intros Hne. rewrite !yields_created.
  destruct (one _); [|reflexivity]. destruct (ffmpeg_starts w); [|reflexivity].
  rewrite (yields_suspended chunks Hne).
  destruct chunks as [|chunk chunks].
  - destruct n as [|n]; [reflexivity|].
    simpl. rewrite drive_closed. reflexivity.
  - assert (Hc : concat (chunk :: chunks) <> [])
      by (apply concat_nonempty; [assumption|discriminate]).
    change [ReadBytes (concat (chunk :: chunks))]
      with (map ReadBytes [concat (chunk :: chunks)]).
    rewrite (yields_suspended [concat (chunk :: chunks)]).
    + simpl concat at 2. rewrite app_nil_r. reflexivity.
    + constructor; [exact Hc | constructor].
Qed.

(** ** Frames between two reads *)

(** Resumed again and again, a suspended generator yields every frame its
    buffer holds, in the order of [drain], without touching the source. *)
Lemma drive_drain (src : byte_source) (data : bytes) :
  drive w (repeat Next (length (fst (drain data)))) (GenSuspended data) src =
  (GenSuspended (snd (drain data)), src,
   map EvYield (map multipart (fst (drain data)))).
Proof.
  apply (drain_ind (fun data frames rest =>
    drive w (repeat Next (length frames)) (GenSuspended data) src =
    (GenSuspended rest, src, map EvYield (map multipart frames)))).
  - intros; reflexivity.
  - intros d frame d' frames rest Hs _ IH.
    simpl repeat. rewrite drive_cons.
    change (gen_do w Next (GenSuspended d) src) with (resume d src).
    rewrite (resume_yield _ _ _ _ Hs).
    simpl. rewrite IH. reflexivity.
Qed.

(** The frames lie in the buffer one after the other, in the order in
    which they are cut. *)
Lemma drain_in_order (data : bytes) :
  exists gaps : list bytes,
    length gaps = length (fst (drain data)) /\
    data = interleave gaps (fst (drain data)) ++ snd (drain data).
Proof.
  apply (drain_ind (fun data frames rest =>
    exists gaps : list bytes,
      length gaps = length frames /\
      data = interleave gaps frames ++ rest)).
  - intros d _. exists []. split; reflexivity.
  - intros d frame d' frames rest Hs _ (gaps & Hlen & Hd').
    destruct (scan_step_yield _ _ _ Hs) as (s & e & _ & _ & Hd & _).
    exists (firstn s d :: gaps). split; [simpl; congruence|].
    simpl. rewrite <- !app_assoc, <- Hd'. exact Hd.
Qed.

Lemma outer_loop_reads_first (data : bytes) (src : byte_source) :
  exists evs, r_events (outer_loop data src) = EvRead 4096 data :: evs.
Proof.
  destruct src as [|[[|b chunk]|] src]; try (simpl; eauto; fail).
  rewrite outer_loop_chunk, r_events_log. eauto.
Qed.

(** ** An unknown stream id *)

Lemma drive_unknown_id (stream_id : Z) (src : byte_source)
    (acts : list action) :
  one (select_stream (registry w) stream_id) = None ->
  exists g, drive w acts (generate_frames stream_id) src = (g, src, []).
Proof.
  intros Hnone. destruct acts as [|a acts]; [eexists; reflexivity|].
  exists GenClosed. rewrite drive_cons. cbv zeta.
  destruct a; simpl; rewrite ?Hnone; destruct (int64 stream_id); simpl;
    rewrite drive_closed; reflexivity.
Qed.

(** ** How a call ends *)

Lemma r_outcome_log (e : event) (r : result) :
  r_outcome (log e r) = r_outcome r.
Proof. destruct r as [[[o g] src] evs]. reflexivity. Qed.

Lemma resume_outcome (data : bytes) (src : byte_source) :
  let r := resume data src in
  match r_outcome r with
  | Yield _ => alive (r_gen r) = 1%nat /\ count_kill (r_events r) = 0%nat
  | _ => r_gen r = GenClosed
  end.
Proof.
  apply (resume_ind (fun _ _ r =>
    match r_outcome r with
    | Yield _ => alive (r_gen r) = 1%nat /\ count_kill (r_events r) = 0%nat
    | _ => r_gen r = GenClosed
    end)); intros;
    rewrite ?r_outcome_log, ?r_gen_log, ?r_events_log; simpl; auto.
Qed.

(** A call yields, and then it was [next] and the process runs on without
    a [kill]; or the generator is finished. *)
Lemma gen_do_outcome (a : action) (g : generator) (src : byte_source) :
  let r := gen_do w a g src in
  match r_outcome r with
  | Yield _ =>
      a = Next /\ alive (r_gen r) = 1%nat /\ count_kill (r_events r) = 0%nat
  | _ => r_gen r = GenClosed
  end.
Proof.
  destruct a, g; try reflexivity; unfold gen_do; cbv zeta.
  - rewrite gen_next_created.
    destruct (one _) as [[[[u q] res] f]|];
      [|destruct (int64 stream_id); reflexivity].
    destruct (ffmpeg_starts w); [|reflexivity].
    rewrite r_outcome_log, r_gen_log, r_events_log.
    pose proof (resume_outcome [] src) as H. cbv zeta in H.
    destruct (r_outcome _); auto.
  - rewrite gen_next_suspended.
    pose proof (resume_outcome data src) as H. cbv zeta in H.
    destruct (r_outcome _); auto.
Qed.

(** A generator that has been called is no longer at its start. *)
Lemma drive_from_start (acts : list action) (g : generator)
    (src : byte_source) :
  unstarted (fst (fst (drive w acts g src))) = 1%nat ->
  acts = [] /\ drive w acts g src = (g, src, []).
Proof.
  destruct acts as [|a acts]; [intros _; split; reflexivity|].
  rewrite drive_cons. cbv zeta.
  pose proof (gen_do_account a g src) as (_ & _ & Hu). cbv zeta in Hu.
  pose proof (drive_account acts (r_gen (gen_do w a g src))
                (r_source (gen_do w a g src))) as Hacc.
  destruct (drive w acts _ _) as [[g' src'] evs'].
  destruct Hacc as (_ & _ & Hle). simpl. intros H. exfalso. lia.
Qed.

End Executions.

(** ** A stream that stops *)

Lemma scan_step_prefix_break (data more : bytes) :
  scan_step (data ++ more) = None -> scan_step data = None.
Proof.
  intros H. destruct (scan_step data) as [[frame rest]|] eqn:Hs;
    [|reflexivity].
  rewrite (scan_step_app _ more _ _ Hs) in H. discriminate.
Qed.

Lemma outer_loop_at_stop (data : bytes) (tail : byte_source) :
  ends_stream tail = true ->
  outer_loop data tail =
  (stop_outcome tail, GenClosed, tl tail, EvRead 4096 data :: cleanup).
Proof.
  destruct tail as [|[[|b chunk]|] tail]; simpl; intros H;
    try discriminate; reflexivity.
Qed.

(** One call of [next] when the bytes still to come complete no frame: it
    reads up to the stop, the buffer at each read being all the bytes
    received so far, and ends there with the [kill]. *)
Lemma resume_stops (tail : byte_source) (chunks : list bytes) :
  ends_stream tail = true ->
  Forall (fun chunk => chunk <> []) chunks ->
  forall data : bytes,
    scan_step (data ++ concat chunks) = None ->
    resume data (map ReadBytes chunks ++ tail) =
    (stop_outcome tail, GenClosed, tl tail,
     map (fun k => EvRead 4096 (data ++ concat (firstn k chunks)))
         (seq 0 (S (length chunks))) ++ cleanup).
Proof.
  intros Hstop. induction 1 as [|chunk chunks Hne _ IH]; intros data Hs.
  - simpl in *. rewrite app_nil_r in *.
    rewrite (resume_break _ _ Hs). apply outer_loop_at_stop, Hstop.
  - simpl concat in Hs.
    pose proof (scan_step_prefix_break _ _ Hs) as Hd.
    rewrite app_assoc in Hs. specialize (IH (data ++ chunk) Hs).
    destruct chunk as [|b chunk]; [contradiction|].
    simpl map at 1. cbn [app].
    rewrite (resume_break _ _ Hd), outer_loop_chunk, IH.
    cbn [log]. f_equal.
    change (seq 0 (S (length ((b :: chunk) :: chunks))))
      with (0%nat :: seq 1 (S (length chunks))).
    rewrite <- seq_shift, map_cons, map_map.
    cbn [firstn concat]. rewrite app_nil_r. cbn [app]. f_equal. f_equal.
    apply map_ext. intros k. cbn [firstn concat].
    rewrite <- app_assoc. reflexivity.
Qed.

Lemma count_kill_reads (buffers : nat -> bytes) (l : list nat) :
  count_kill (map (fun k => EvRead 4096 (buffers k)) l) = 0%nat /\
  count_popen (map (fun k => EvRead 4096 (buffers k)) l) = 0%nat.
Proof. induction l as [|k l IH]; [split; reflexivity|exact IH]. Qed.

Lemma drive_cons_state (w : env) (a : action) (acts : list action)
    (g : generator) (src : byte_source) :
  fst (drive w (a :: acts) g src) =
  fst (drive w acts (r_gen (gen_do w a g src)) (r_source (gen_do w a g src))).
Proof.
  rewrite drive_cons. cbv zeta.
  destruct (drive w acts _ _) as [[g' src'] evs']. reflexivity.
Qed.

Lemma outer_loop_stops (data : bytes) (tail : byte_source) :
  ends_stream tail = true ->
  r_gen (outer_loop data tail) = GenClosed /\
  r_source (outer_loop data tail) = tl tail /\
  yields (r_events (outer_loop data tail)) = [].
Proof.
  destruct tail as [|[[|b chunk]|] tail]; simpl; intros H;
    try discriminate; repeat split; reflexivity.
Qed.

(** [n] calls of [next] on a source that delivers the chunks and then
    stops: the frames of the bytes delivered, in order, one per call; once
    they are out, the generator is finished at the stop. *)
Lemma drive_stream_that_stops (w : env) (tail : byte_source)
    (chunks : list bytes) :
  ends_stream tail = true ->
  Forall (fun chunk => chunk <> []) chunks ->
  forall (data : bytes) (n : nat),
    let frames := fst (drain (data ++ concat chunks)) in
    let run := drive w (repeat Next n) (GenSuspended data)
                     (map ReadBytes chunks ++ tail) in
    yields (snd run) = firstn n (map multipart frames) /\
    ((length frames < n)%nat -> fst run = (GenClosed, tl tail)).
Proof.
  intros Hstop. induction 1 as [|chunk chunks Hne _ IH]; intros data;
    cbv zeta; simpl concat; simpl map; cbn [app];
    remember (length data) as m eqn:Hm; revert data Hm;
    induction m as [m IHm] using lt_wf_ind; intros data -> [|n];
    try (split; [reflexivity | intros Hlt; exfalso; lia]);
    simpl repeat; rewrite yields_drive_cons, drive_cons_state;
    match goal with
    | |- context [gen_do w Next (GenSuspended data) ?s] =>
        change (gen_do w Next (GenSuspended data) s) with (resume data s)
    end;
    destruct (scan_step data) as [[frame d']|] eqn:Hs.
  - (* no chunk left, a frame in the buffer *)
    rewrite (resume_yield _ _ _ _ Hs). cbn [r_events r_gen r_source].
    pose proof (scan_step_shrinks _ _ _ Hs) as Hlt.
    specialize (IHm (length d') ltac:(lia) d' eq_refl n).
    cbv zeta in IHm. rewrite app_nil_r in IHm |- *.
    rewrite (drain_unfold data), Hs.
    destruct (drain d') as [frames rest]. cbn [fst snd] in IHm |- *.
    destruct IHm as [IHy IHs]. split.
    + simpl. rewrite IHy. reflexivity.
    + intros Hn. apply IHs. simpl in Hn. lia.
  - (* no chunk left, the loop breaks: the read meets the stop *)
    rewrite (resume_break _ _ Hs), app_nil_r, (drain_break _ Hs).
    destruct (outer_loop_stops data tail Hstop) as (Hg & Hsrc & Hy).
    rewrite Hg, Hsrc, Hy, drive_closed. split; [reflexivity|].
    intros _. reflexivity.
  - (* a frame in the buffer *)
    rewrite (resume_yield _ _ _ _ Hs). cbn [r_events r_gen r_source].
    pose proof (scan_step_shrinks _ _ _ Hs) as Hlt.
    specialize (IHm (length d') ltac:(lia) d' eq_refl n).
    cbv zeta in IHm.
    rewrite (drain_unfold (data ++ chunk ++ concat chunks)),
      (scan_step_app _ (chunk ++ concat chunks) _ _ Hs).
    destruct (drain (d' ++ chunk ++ concat chunks)) as [frames rest].
    cbn [fst snd] in IHm |- *. destruct IHm as [IHy IHs]. split.
    + simpl. rewrite IHy. reflexivity.
    + intros Hn. apply IHs. simpl in Hn. lia.
  - (* the loop breaks and the next chunk is read *)
    rewrite (resume_break _ _ Hs).
    destruct chunk as [|b chunk]; [contradiction|].
    rewrite outer_loop_chunk, r_events_log, r_gen_log, r_source_log.
    specialize (IH (data ++ b :: chunk) (S n)). cbv zeta in IH.
    simpl repeat in IH. rewrite yields_drive_cons, drive_cons_state in IH.
    change (gen_do w Next (GenSuspended (data ++ b :: chunk))
              (map ReadBytes chunks ++ tail))
      with (resume (data ++ b :: chunk) (map ReadBytes chunks ++ tail)) in IH.
    rewrite <- app_assoc in IH. exact IH.
Qed.

Lemma drive_started (w : env) (stream_id : Z) (acts : list action)
    (src : byte_source) (row : string * string * string * Z) :
  one (select_stream (registry w) stream_id) = Some row ->
  ffmpeg_starts w = true ->
  fst (drive w (Next :: acts) (generate_frames stream_id) src) =
    fst (drive w (Next :: acts) (GenSuspended []) src) /\
  exists cmd,
    snd (drive w (Next :: acts) (generate_frames stream_id) src) =
    EvPopen cmd :: snd (drive w (Next :: acts) (GenSuspended []) src).
Proof.
  intros Hrow Hstart. rewrite !drive_cons. cbv zeta.
  change (gen_do w Next (generate_frames stream_id) src)
    with (gen_next w (GenCreated stream_id) src).
  change (gen_do w Next (GenSuspended []) src) with (resume [] src).
  rewrite gen_next_created, Hrow, Hstart.
  destruct row as [[[u q] res] f].
  rewrite r_events_log, r_gen_log, r_source_log.
  destruct (drive w acts _ _) as [[g' src'] evs']. split; [reflexivity|].
  eexists. reflexivity.
Qed.

(** More calls of [next] than there are frames before the stop: the
    generator is finished there, and the [kill] and the exit of the [with]
    block are the last two events. *)
Lemma drive_to_the_stop (w : env) (tail : byte_source) (chunks : list bytes)
    (data : bytes) (n : nat) :
  ends_stream tail = true ->
  Forall (fun chunk => chunk <> []) chunks ->
  (length (fst (drain (data ++ concat chunks))) < n)%nat ->
  exists pre,
    drive w (repeat Next n) (GenSuspended data) (map ReadBytes chunks ++ tail)
      = (GenClosed, tl tail, pre ++ cleanup) /\
    count_kill pre = 0%nat /\ count_popen pre = 0%nat.
Proof.
  intros Hstop Hne Hn.
  destruct (drive_stream_that_stops w tail chunks Hstop Hne data n)
    as [_ Hs].
  specialize (Hs Hn).
  pose proof (drive_account w (repeat Next n) (GenSuspended data)
                (map ReadBytes chunks ++ tail)) as Hacc.
  pose proof (drive_closing w (repeat Next n) (GenSuspended data)
                (map ReadBytes chunks ++ tail)) as Hcl.
  destruct (drive w (repeat Next n) (GenSuspended data) _)
    as [[g src'] evs].
  simpl in Hs. injection Hs as -> ->.
  destruct (Hcl eq_refl (or_introl eq_refl)) as (pre & -> & Hk).
  exists pre. split; [reflexivity|]. split; [exact Hk|].
  destruct Hacc as (_ & Hp & _). rewrite count_popen_app in Hp.
  simpl in Hp. lia.
Qed.

(** * The claims *)

(** C1 -- In every execution of [generate_frames], whatever the registry,
    the byte source and the calls of the consumer, from the state reached
    after any calls:
    - at most one decoder process is started, and it is killed exactly once
      when the generator has finished and not at all while it is suspended;
      a finished generator that started a process has run [p.kill()] and the
      exit of the [with] block as its last two events;
    - whatever call comes next, either it yields, and then it is a [next],
      the process runs on and no [kill] has happened; or it returns or
      raises, and then the generator is finished and as many processes have
      been killed as were started;
    - at a [yield], an exception thrown in is raised again and [close]
      returns, each after the [kill] and the exit of the [with] block and
      without a read;
    - when the source delivers chunks and then stops (end of the stream, a
      read of zero bytes, a read that raises) and a process is started: the
      call of [next] that finds no further frame returns normally at an end
      of stream and raises the error of the read, the process killed once;
      and more calls of [next] than there are frames to come finish the
      generator at the stop with one [kill];
    - [close] finishes the generator without a read, after which no call
      reads the source or produces an event. *)
Theorem generate_frames_kills_exactly_once (w : env) (stream_id : Z)
    (src : byte_source) (acts more : list action) :
  let '(g, src', evs) := drive w acts (generate_frames stream_id) src in
  (count_popen evs <= 1)%nat /\
  (count_kill evs + alive g = count_popen evs)%nat /\
  (g = GenClosed -> count_popen evs = 1%nat ->
   count_kill evs = 1%nat /\
   exists pre, evs = pre ++ [EvKill; EvExit] /\ count_kill pre = 0%nat) /\
  (forall a : action,
     let r := gen_do w a g src' in
     match r_outcome r with
     | Yield _ =>
         a = Next /\ alive (r_gen r) = 1%nat /\
         count_popen (evs ++ r_events r) = 1%nat /\
         count_kill (evs ++ r_events r) = 0%nat
     | _ =>
         r_gen r = GenClosed /\
         count_kill (evs ++ r_events r) = count_popen (evs ++ r_events r)
     end) /\
  (alive g = 1%nat ->
   forall e : exn,
     gen_throw e g src' = (Raise e, GenClosed, src', [EvKill; EvExit]) /\
     gen_close g src' = (Return, GenClosed, src', [EvKill; EvExit])) /\
  (forall (chunks : list bytes) (tail : byte_source),
     src' = map ReadBytes chunks ++ tail ->
     Forall (fun chunk => chunk <> []) chunks ->
     ends_stream tail = true ->
     g <> GenClosed ->
     (scan_step (buffer_of g ++ concat chunks) = None ->
      let r := gen_next w g src' in
      count_popen (evs ++ r_events r) = 1%nat ->
      r_outcome r = stop_outcome tail /\
      r_gen r = GenClosed /\
      r_source r = tl tail /\
      exists pre, evs ++ r_events r = pre ++ [EvKill; EvExit] /\
                  count_kill pre = 0%nat) /\
     (forall n : nat,
        (length (fst (drain (buffer_of g ++ concat chunks))) < n)%nat ->
        let '(g2, src2, evs2) := drive w (repeat Next n) g src' in
        count_popen (evs ++ evs2) = 1%nat ->
        g2 = GenClosed /\ src2 = tl tail /\
        exists pre, evs ++ evs2 = pre ++ [EvKill; EvExit] /\
                    count_kill pre = 0%nat)) /\
  exists evs1,
    drive w (acts ++ [Close]) (generate_frames stream_id) src
      = (GenClosed, src', evs1) /\
    drive w (acts ++ Close :: more) (generate_frames stream_id) src
      = (GenClosed, src', evs1) /\
    count_read evs1 = count_read evs /\
    count_kill evs1 = count_popen evs1.
Proof.
  pose proof (drive_account w acts (generate_frames stream_id) src) as Hacc.
  pose proof (drive_closing w acts (generate_frames stream_id) src) as Hcl.
  pose proof (drive_from_start w acts (generate_frames stream_id) src)
    as Hfresh.
  pose proof (drive_app w acts [Close] (generate_frames stream_id) src) as H1.
  pose proof (drive_app w acts (Close :: more) (generate_frames stream_id) src)
    as H2.
  destruct (drive w acts (generate_frames stream_id) src) as [[g src'] evs].
  destruct Hacc as (Hk & Hp & _). simpl in Hk, Hp. cbn [fst] in Hfresh.
  assert (Hnil : unstarted g = 1%nat -> evs = []).
  { intros Hu. destruct (Hfresh Hu) as [_ Hnil].
    injection Hnil as _ _ <-. reflexivity. }
  clear Hfresh.
  split; [lia|]. split; [lia|]. split; [|split; [|split; [|split]]].
  - intros Hg Hpop. subst g. simpl in Hk. split; [lia|].
    apply Hcl; [reflexivity | right; exact Hpop].
  - intros a. cbv zeta.
    pose proof (gen_do_outcome w a g src') as Ho.
    pose proof (gen_do_account w a g src') as (Hk1 & Hp1 & _).
    cbv zeta in Ho, Hk1, Hp1.
    rewrite !count_kill_app, !count_popen_app.
    destruct (r_outcome (gen_do w a g src')) as [c| |e].
    + destruct Ho as (Ha & Hal & Hk0).
      destruct g as [id|data|]; [rewrite (Hnil eq_refl)| |];
        simpl in Hk, Hp, Hk1, Hp1 |- *; repeat split; try assumption; lia.
    + split; [exact Ho|]. rewrite Ho in Hk1. simpl in Hk1. lia.
    + split; [exact Ho|]. rewrite Ho in Hk1. simpl in Hk1. lia.
  - intros Hal e. destruct g; try discriminate. split; reflexivity.
  - intros chunks tail -> Hne Hstop Hg. split.
    + intros Hs. cbv zeta. destruct g as [id|data|]; [| |congruence].
      * rewrite (Hnil eq_refl).
        simpl buffer_of in Hs. simpl in Hs.
        rewrite gen_next_created.
        destruct (one _) as [[[[u q] res] f]|];
          [|destruct (int64 id); simpl; discriminate].
        destruct (ffmpeg_starts w); [|simpl; discriminate].
        rewrite (resume_stops tail chunks Hstop Hne [] Hs).
        intros _. cbn [log r_outcome r_gen r_source r_events app].
        repeat split.
        eexists (EvPopen _ :: map _ _). split; [reflexivity|].
        apply (count_kill_reads
                 (fun k => [] ++ concat (firstn k chunks))).
      * simpl buffer_of in Hs.
        rewrite gen_next_suspended,
          (resume_stops tail chunks Hstop Hne data Hs).
        intros _. cbn [r_outcome r_gen r_source r_events].
        repeat split. rewrite app_assoc. eexists. split; [reflexivity|].
        rewrite count_kill_app.
        rewrite (proj1 (count_kill_reads
                   (fun k => data ++ concat (firstn k chunks)) _)).
        simpl in Hk. lia.
    + intros n Hn. destruct g as [id|data|]; [| |congruence].
      * rewrite (Hnil eq_refl).
        simpl buffer_of in Hn. simpl in Hn.
        destruct n as [|n]; [exfalso; lia|]. simpl repeat.
        pose proof (drive_to_the_stop w tail chunks [] (S n) Hstop Hne Hn)
          as (pre & Hrun & Hk0 & _).
        simpl repeat in Hrun.
        rewrite drive_cons in Hrun |- *. cbv zeta in Hrun |- *.
        change (gen_do w Next (GenCreated id) (map ReadBytes chunks ++ tail))
          with (gen_next w (GenCreated id) (map ReadBytes chunks ++ tail)).
        change (gen_do w Next (GenSuspended [])
                  (map ReadBytes chunks ++ tail))
          with (resume [] (map ReadBytes chunks ++ tail)) in Hrun.
        rewrite gen_next_created.
        destruct (one _) as [[[[u q] res] f]|];
          [|destruct (int64 id); simpl; rewrite drive_closed; simpl;
            discriminate].
        destruct (ffmpeg_starts w);
          [|simpl; rewrite drive_closed; simpl; discriminate].
        rewrite r_gen_log, r_source_log, r_events_log. revert Hrun.
        destruct (drive w (repeat Next n) _ _) as [[g2 src2] evs2].
        intros Hrun. injection Hrun as -> -> Hevs. intros _. repeat split.
        exists (EvPopen (command u q res f) :: pre).
        cbn [app]. rewrite Hevs. split; [reflexivity|exact Hk0].
      * simpl buffer_of in Hn.
        pose proof (drive_to_the_stop w tail chunks data n Hstop Hne Hn)
          as (pre & Hrun & Hk0 & _).
        rewrite Hrun. intros _. repeat split.
        exists (evs ++ pre). rewrite app_assoc. split; [reflexivity|].
        rewrite count_kill_app. simpl in Hk. lia.
  - rewrite drive_cons in H2. cbv zeta in H2. simpl gen_do in H2.
    rewrite H1, H2. clear H1 H2. simpl.
    destruct g as [id|d|]; simpl; rewrite ?drive_closed;
      eexists; repeat split;
      rewrite ?count_read_app, ?count_kill_app, ?count_popen_app;
      simpl in *; count_simpl; lia.
Qed.

Lemma generate_frames_kills_exactly_once_witness :
  count_kill
    (snd (drive demo_env [Next; Next; Next; Close] (generate_frames 1)
            [ReadBytes [xff; xd8; x01; xff; xd9; xff; xd8; x02; xff; xd9;
                        xff; xd8; x03; xff; xd9; xff; xd8; x04; xff; xd9];
             ReadBytes [xff; xd8; x05; xff; xd9]])) = 1%nat /\
  gen_throw (Thrown 0) (GenSuspended [xff; xd8])
    [ReadBytes [x02; xff; xd9]] =
  (Raise (Thrown 0), GenClosed, [ReadBytes [x02; xff; xd9]],
   [EvKill; EvExit]) /\
  r_outcome (gen_next demo_env (GenSuspended [xff; xd8])
               [ReadBytes [x02]; ReadError; ReadBytes [xff; xd9]]) =
  Raise ReadFailure.
Proof.
  split; [|split].
  - pose proof (generate_frames_kills_exactly_once demo_env 1
      [ReadBytes [xff; xd8; x01; xff; xd9; xff; xd8; x02; xff; xd9;
                  xff; xd8; x03; xff; xd9; xff; xd8; x04; xff; xd9];
       ReadBytes [xff; xd8; x05; xff; xd9]]
      [Next; Next; Next; Close] []) as H.
    destruct (drive demo_env [Next; Next; Next; Close] (generate_frames 1) _)
      as [[g src'] evs] eqn:Hd.
    destruct H as (_ & _ & H & _).
    vm_compute in Hd. injection Hd as <- <- <-.
    apply H; reflexivity.
  - pose proof (generate_frames_kills_exactly_once demo_env 1
      [ReadBytes [xff; xd8; x01; xff; xd9; xff; xd8];
       ReadBytes [x02; xff; xd9]]
      [Next] []) as H.
    destruct (drive demo_env [Next] (generate_frames 1) _)
      as [[g src'] evs] eqn:Hd.
    destruct H as (_ & _ & _ & _ & H & _).
    vm_compute in Hd. injection Hd as <- <- <-.
    apply (H eq_refl (Thrown 0)).
  - pose proof (generate_frames_kills_exactly_once demo_env 1
      [ReadBytes [xff; xd8; x01; xff; xd9; xff; xd8]; ReadBytes [x02];
       ReadError; ReadBytes [xff; xd9]]
      [Next] []) as H.
    destruct (drive demo_env [Next] (generate_frames 1) _)
      as [[g src'] evs] eqn:Hd.
    destruct H as (_ & _ & _ & _ & _ & H & _).
    vm_compute in Hd. injection Hd as <- <- <-.
    refine (proj1 (proj1 (H [[x02]] [ReadError; ReadBytes [xff; xd9]]
                            eq_refl _ eq_refl _) _ _)).
    + repeat constructor; discriminate.
    + discriminate.
    + reflexivity.
    + reflexivity.
Defined.

(** The scenario of the specification: the client goes away after three
    frames; one [kill], the second chunk of the source is never read. *)
Example disconnect_after_three_frames :
  drive demo_env [Next; Next; Next; Close; Next] (generate_frames 1)
    [ReadBytes [xff; xd8; x01; xff; xd9; xff; xd8; x02; xff; xd9;
                xff; xd8; x03; xff; xd9; xff; xd8; x04; xff; xd9];
     ReadBytes [xff; xd8; x05; xff; xd9]] =
  (GenClosed, [ReadBytes [xff; xd8; x05; xff; xd9]],
   [EvPopen (command "rtsp://camera/live" "5" "640x480" 15);
    EvRead 4096 [];
    EvYield (multipart [xff; xd8; x01; xff; xd9]);
    EvYield (multipart [xff; xd8; x02; xff; xd9]);
    EvYield (multipart [xff; xd8; x03; xff; xd9]);
    EvKill; EvExit]).
Proof. reflexivity. Qed.

(** The other ways out: an error of the read, an exception thrown at the
    [yield], the end of the stream. *)
Example read_error_kills_once :
  drive demo_env [Next; Next] (generate_frames 1)
    [ReadBytes [xff; xd8; xaa]; ReadError; ReadBytes [xff; xd9]] =
  (GenClosed, [ReadBytes [xff; xd9]],
   [EvPopen (command "rtsp://camera/live" "5" "640x480" 15);
    EvRead 4096 []; EvRead 4096 [xff; xd8; xaa]; EvKill; EvExit]).
Proof. reflexivity. Qed.

Example throw_at_yield_kills_once :
  drive demo_env [Next; Throw (Thrown 0); Next] (generate_frames 1)
    [ReadBytes [xff; xd8; xaa; xff; xd9]; ReadBytes [xff; xd8; xbb; xff; xd9]] =
  (GenClosed, [ReadBytes [xff; xd8; xbb; xff; xd9]],
   [EvPopen (command "rtsp://camera/live" "5" "640x480" 15);
    EvRead 4096 []; EvYield (multipart [xff; xd8; xaa; xff; xd9]);
    EvKill; EvExit]).
Proof. reflexivity. Qed.

Example end_of_stream_kills_once :
  drive demo_env [Next; Next; Next] (generate_frames 1)
    [ReadBytes [xff; xd8; xaa; xff; xd9; xff; xd8]] =
  (GenClosed, [],
   [EvPopen (command "rtsp://camera/live" "5" "640x480" 15);
    EvRead 4096 []; EvYield (multipart [xff; xd8; xaa; xff; xd9]);
    EvRead 4096 [xff; xd8]; EvKill; EvExit]).
Proof. reflexivity. Qed.

Example launch_failure_starts_nothing :
  drive {| registry := registry demo_env; ffmpeg_starts := false |}
    [Next; Close] (generate_frames 1) [ReadBytes [xff; xd8; xaa; xff; xd9]] =
  (GenClosed, [ReadBytes [xff; xd8; xaa; xff; xd9]], []).
Proof. reflexivity. Qed.

(** C2, as stated, fails: with an empty registry the id [7] resolves to no
    stream, and the response of [video_feed] is the ordinary success
    response, not a failure. *)
Lemma video_feed_unknown_id_is_not_a_failure :
  (forall r, In r [] -> row_id r <> 7) /\
  one (select_stream [] 7) = None /\
  status (video_feed 7) = 200 /\
  ~ (is_failure (video_feed 7) = true).
Proof.
  split; [intros r []|]. repeat split. discriminate.
Qed.

(** C2, amended -- For every stream id that resolves to no stored stream,
    whatever the consumer of the body does, nothing is yielded, no decoder
    process is started and the source is not read; [video_feed] builds its
    response, of the multipart type, before the registry is read.  For an id
    within the signed 64-bit range no failure is reported: the response has
    status 200 and the first [next] on its body returns at once, the body
    empty.  An id outside that range, which the route accepts as well, makes
    the query raise: the first [next] raises [OverflowError], before any
    byte. *)
Theorem video_feed_unknown_id_empty_body (w : env) (stream_id : Z)
    (src : byte_source) (acts : list action) :
  (forall r, In r (registry w) -> row_id r <> stream_id) ->
  (exists g,
     drive w acts (response (video_feed stream_id)) src = (g, src, [])) /\
  mimetype (video_feed stream_id)
    = "multipart/x-mixed-replace; boundary=frame"%string /\
  if int64 stream_id then
    status (video_feed stream_id) = 200 /\
    is_failure (video_feed stream_id) = false /\
    gen_next w (response (video_feed stream_id)) src
      = (Return, GenClosed, src, [])
  else
    gen_next w (response (video_feed stream_id)) src
      = (Raise OverflowError, GenClosed, src, []).
Proof.
  intros Hunknown.
  assert (Hnone : one (select_stream (registry w) stream_id) = None)
    by (rewrite select_stream_unknown by exact Hunknown; reflexivity).
  split; [apply drive_unknown_id, Hnone|]. split; [reflexivity|].
  change (response (video_feed stream_id)) with (GenCreated stream_id).
  rewrite gen_next_created, Hnone.
  destruct (int64 stream_id); repeat split.
Qed.

Lemma video_feed_unknown_id_empty_body_witness :
  gen_next demo_env (response (video_feed 2))
    [ReadBytes [xff; xd8; xaa; xff; xd9]] =
  (Return, GenClosed, [ReadBytes [xff; xd8; xaa; xff; xd9]], []) /\
  gen_next demo_env (response (video_feed 9223372036854775808))
    [ReadBytes [xff; xd8; xaa; xff; xd9]] =
  (Raise OverflowError, GenClosed, [ReadBytes [xff; xd8; xaa; xff; xd9]], []).
Proof.
  split.
  - refine (proj2 (proj2 (proj2 (proj2
      (video_feed_unknown_id_empty_body demo_env 2
         [ReadBytes [xff; xd8; xaa; xff; xd9]] [] _))))).
    intros r [<-|[]]. simpl. discriminate.
  - refine (proj2 (proj2
      (video_feed_unknown_id_empty_body demo_env 9223372036854775808
         [ReadBytes [xff; xd8; xaa; xff; xd9]] [] _))).
    intros r [<-|[]]. simpl. discriminate.
Defined.

(** C3 -- Chunking invariance.  For every list of chunks, feeding the
    chunks one at a time through the frame-splitting loop ([data += chunk]
    and the inner loop, the buffer carried over) gives the same frames in
    the same order, and the same final buffer, as feeding their
    concatenation as one chunk.  Through the generator, where a read of
    zero bytes ends the stream, the same holds of the chunks yielded by any
    number of calls of [next], for every source that delivers non-empty
    chunks.  In particular [FF D8 AA] alone gives no frame, and [BB FF D9]
    after it gives the one frame [FF D8 AA BB FF D9]. *)
Theorem chunking_invariance (chunks : list bytes) :
  feed_all [] chunks = feed [] (concat chunks) /\
  (Forall (fun chunk => chunk <> []) chunks ->
   forall (w : env) (n : nat) (stream_id : Z),
     yields (snd (drive w (repeat Next n) (generate_frames stream_id)
                    (map ReadBytes chunks))) =
     yields (snd (drive w (repeat Next n) (generate_frames stream_id)
                    [ReadBytes (concat chunks)]))) /\
  feed [] [xff; xd8; xaa] = ([], [xff; xd8; xaa]) /\
  feed [xff; xd8; xaa] [xbb; xff; xd9] =
    ([[xff; xd8; xaa; xbb; xff; xd9]], []).
Proof.
  split; [|split; [|split; reflexivity]].
  - apply feed_all_drain, scan_step_nil.
  - intros Hne w n stream_id. apply yields_chunking, Hne.
Qed.

Lemma chunking_invariance_witness :
  yields (snd (drive demo_env (repeat Next 5) (generate_frames 1)
                 (map ReadBytes [[xff; xd8; xaa]; [xbb; xff; xd9]]))) =
  yields (snd (drive demo_env (repeat Next 5) (generate_frames 1)
                 [ReadBytes (concat [[xff; xd8; xaa]; [xbb; xff; xd9]])])).
Proof.
  apply (proj1 (proj2 (chunking_invariance
                         [[xff; xd8; xaa]; [xbb; xff; xd9]]))).
  repeat constructor; discriminate.
Defined.

(** C4, as stated, fails: the sequence [FF D8 FF D9 AA FF D9] begins with
    a start marker and ends with an end marker, one span with no partial
    span after it, yet the splitter cuts the frame [FF D8 FF D9] at the
    first end marker and keeps [AA FF D9] in its buffer. *)
Lemma marked_span_with_inner_end_marker :
  Forall marked_span [[xff; xd8; xff; xd9; xaa; xff; xd9]] /\
  feed [] (concat [[xff; xd8; xff; xd9; xaa; xff; xd9]]) =
    ([[xff; xd8; xff; xd9]], [xaa; xff; xd9]) /\
  ~ (length (fst (feed [] (concat [[xff; xd8; xff; xd9; xaa; xff; xd9]]))) = 1%nat /\
     snd (feed [] (concat [[xff; xd8; xff; xd9; xaa; xff; xd9]])) = []).
Proof.
  split; [|split].
  - repeat constructor.
  - reflexivity.
  - intros [_ H]. discriminate H.
Qed.

(** C4, amended -- For every input made of [N] complete spans, each
    beginning with [FF D8], ending with [FF D9] and holding no other end
    marker from its third byte on, with nothing after the last span, the
    splitter produces exactly [N] frames, the spans themselves in order,
    and its buffer is empty afterwards, however the input is cut into
    chunks.  In particular the single chunk
    [FF D8 AA BB FF D9 FF D8 CC FF D9] gives the two frames
    [FF D8 AA BB FF D9] and [FF D8 CC FF D9] and an empty buffer. *)
Theorem tight_spans_are_the_frames (spans chunks : list bytes) :
  Forall tight_span spans ->
  concat chunks = concat spans ->
  feed_all [] chunks = (spans, []) /\
  feed [] (concat spans) = (spans, []) /\
  length (fst (feed [] (concat spans))) = length spans /\
  feed [] [xff; xd8; xaa; xbb; xff; xd9; xff; xd8; xcc; xff; xd9] =
    ([[xff; xd8; xaa; xbb; xff; xd9]; [xff; xd8; xcc; xff; xd9]], []).
Proof.
  intros Hspans Hcat.
  assert (H : feed [] (concat spans) = (spans, []))
    by (apply drain_tight_spans, Hspans).
  repeat split.
  - rewrite (feed_all_drain chunks [] scan_step_nil), Hcat. exact H.
  - exact H.
  - rewrite H. reflexivity.
Qed.

Lemma tight_span_example :
  tight_span [xff; xd8; xaa; xbb; xff; xd9] /\ tight_span [xff; xd8; xcc; xff; xd9].
Proof.
  split; (split; [split; reflexivity|]); intros j Hj Hlt; simpl in Hlt;
    unfold occurs_at.
  - destruct j as [|[|[|[|j]]]]; try lia; simpl; discriminate.
  - destruct j as [|[|[|j]]]; try lia; simpl; discriminate.
Qed.

Lemma tight_spans_are_the_frames_witness :
  feed_all [] [[xff; xd8; xaa]; [xbb; xff; xd9; xff; xd8]; [xcc; xff; xd9]] =
  ([[xff; xd8; xaa; xbb; xff; xd9]; [xff; xd8; xcc; xff; xd9]], []).
Proof.
  apply (tight_spans_are_the_frames
           [[xff; xd8; xaa; xbb; xff; xd9]; [xff; xd8; xcc; xff; xd9]]).
  - destruct tight_span_example as [H1 H2].
    apply Forall_cons; [exact H1|]. apply Forall_cons; [exact H2|].
    apply Forall_nil.
  - reflexivity.
Defined.

(** C5 -- When the read of a chunk leaves one or more complete pairs in
    the buffer, the calls that follow yield every complete frame, in buffer
    order, the source being left untouched: the trace is the read followed
    by the yields only, the frames are disjoint consecutive slices of the
    buffer, no complete pair remains, and the call after the last frame
    begins with the next read. *)
Theorem frames_emitted_before_next_read (w : env) (data chunk : bytes)
    (src : byte_source) :
  scan_step data = None ->
  chunk <> [] ->
  fst (feed data chunk) <> [] ->
  let frames := fst (feed data chunk) in
  let rest := snd (feed data chunk) in
  drive w (repeat Next (length frames)) (GenSuspended data)
        (ReadBytes chunk :: src) =
    (GenSuspended rest, src,
     EvRead 4096 data :: map EvYield (map multipart frames)) /\
  scan_step rest = None /\
  (exists gaps : list bytes,
      length gaps = length frames /\
      data ++ chunk = interleave gaps frames ++ rest) /\
  (exists evs, r_events (gen_next w (GenSuspended rest) src)
               = EvRead 4096 rest :: evs).
Proof.
  intros Hs Hne Hframes frames rest. subst frames rest. unfold feed in *.
  repeat split.
  - destruct chunk as [|b chunk]; [contradiction|].
    rewrite drain_unfold in Hframes |- *.
    destruct (scan_step (data ++ b :: chunk)) as [[frame d']|] eqn:Hs';
      [|contradiction].
    pose proof (drive_drain w src d') as Hd.
    destruct (drain d') as [frames rest] eqn:Hdr.
    cbn [fst snd length repeat map] in Hd |- *.
    rewrite drive_cons.
    change (gen_do w Next (GenSuspended data) (ReadBytes (b :: chunk) :: src))
      with (resume data (ReadBytes (b :: chunk) :: src)).
    rewrite (resume_break _ _ Hs), outer_loop_chunk.
    rewrite (resume_yield _ _ _ _ Hs').
    cbn [log r_gen r_source r_events]. cbv zeta. rewrite Hd. reflexivity.
  - apply drain_exits.
  - apply drain_in_order.
  - rewrite gen_next_suspended, (resume_break _ _ (drain_exits _)).
    apply outer_loop_reads_first.
Qed.

Lemma frames_emitted_before_next_read_witness :
  drive demo_env [Next; Next] (GenSuspended [xff; xd8; xaa])
        [ReadBytes [xbb; xff; xd9; xff; xd8; xcc; xff; xd9; xff]; ReadError] =
  (GenSuspended [xff], [ReadError],
   [EvRead 4096 [xff; xd8; xaa];
    EvYield (multipart [xff; xd8; xaa; xbb; xff; xd9]);
    EvYield (multipart [xff; xd8; xcc; xff; xd9])]).
Proof.
  refine (proj1 (frames_emitted_before_next_read demo_env
                   [xff; xd8; xaa]
                   [xbb; xff; xd9; xff; xd8; xcc; xff; xd9; xff]
                   [ReadError] _ _ _)).
  - reflexivity.
  - discriminate.
  - vm_compute. discriminate.
Defined.

(** C6 -- For every buffer that holds a start marker and in which no start
    marker has an end marker after it, one pass of the boundary scan takes
    the [break]: it emits no frame, leaves the buffer as it is, and the
    next read is appended to all of its bytes. *)
Theorem start_marker_without_end_marker_waits (data : bytes) :
  (exists s : nat, occurs_at SOI data s) ->
  (forall s e : nat,
      occurs_at SOI data s -> (s < e)%nat -> ~ occurs_at EOI data e) ->
  scan_step data = None /\
  drain data = ([], data) /\
  (forall (src : byte_source) (on_break : result),
      inner_loop data src on_break = on_break) /\
  (forall (w : env) (b : byte) (chunk : bytes) (src : byte_source),
      gen_next w (GenSuspended data) (ReadBytes (b :: chunk) :: src) =
      log (EvRead 4096 data)
          (gen_next w (GenSuspended (data ++ b :: chunk)) src)).
Proof.
  intros _ Hno.
  assert (Hs : scan_step data = None).
  { apply scan_step_None_iff. intros s e Hs He Hlt. exact (Hno s e Hs Hlt He). }
  repeat split.
  - exact Hs.
  - apply drain_break, Hs.
  - intros src on_break. unfold inner_loop. rewrite Hs. reflexivity.
  - intros w b chunk src. rewrite !gen_next_suspended.
    rewrite (resume_break _ _ Hs). apply outer_loop_chunk.
Qed.

Lemma start_marker_without_end_marker_waits_witness :
  scan_step [x00; xff; xd8; xaa; xff] = None.
Proof.
  refine (proj1 (start_marker_without_end_marker_waits
                   [x00; xff; xd8; xaa; xff] _ _)).
  - exists 1%nat. reflexivity.
  - intros s e Hs Hlt He. unfold occurs_at in *.
    destruct e as [|[|[|[|[|e]]]]]; simpl in He; try discriminate He.
    rewrite skipn_nil in He. discriminate He.
Defined.

(** C7 -- Every chunk yielded in an execution of [generate_frames] is the
    bytes [--frame CRLF Content-Type: image/jpeg CRLF CRLF], then a frame,
    then [CRLF]; the frame is the slice of the buffer from [start], the
    first start marker, to [end + 2], where [end], the first end marker at
    or after [start + 2], is at least [start + 2]; it begins with [FF D8],
    ends with [FF D9] and has at least four bytes. *)
Theorem yielded_chunk_wraps_a_frame (w : env) (stream_id : Z)
    (src : byte_source) (acts : list action) (chunk : bytes) :
  In (EvYield chunk) (snd (drive w acts (generate_frames stream_id) src)) ->
  exists frame data : bytes,
    chunk = (list_byte_of_string "--frame" ++ [x0d; x0a] ++
             list_byte_of_string "Content-Type: image/jpeg" ++
             [x0d; x0a; x0d; x0a]) ++ frame ++ [x0d; x0a] /\
    (let start := find SOI data 0 in
     let end_ := find EOI data (start + 2) in
     0 <= start /\ start + 2 <= end_ /\
     frame = slice data start (end_ + 2)) /\
    firstn 2 frame = [xff; xd8] /\
    skipn (length frame - 2) frame = [xff; xd9] /\
    (4 <= length frame)%nat.
Proof.
  intros Hin.
  pose proof (drive_events_ok w acts (generate_frames stream_id) src) as Hok.
  destruct (drive w acts (generate_frames stream_id) src) as [[g src'] evs].
  simpl in Hin. rewrite Forall_forall in Hok.
  destruct (Hok _ Hin) as (data & frame & data' & Hs & ->).
  destruct (scan_step_frame _ _ _ Hs) as (H0 & H1 & H2 & H3 & H4 & H5).
  exists frame, data. repeat split; assumption.
Qed.

Lemma yielded_chunk_wraps_a_frame_witness :
  exists frame data : bytes,
    multipart [xff; xd8; xaa; xbb; xff; xd9] =
      (list_byte_of_string "--frame" ++ [x0d; x0a] ++
       list_byte_of_string "Content-Type: image/jpeg" ++
       [x0d; x0a; x0d; x0a]) ++ frame ++ [x0d; x0a] /\
    (let start := find SOI data 0 in
     let end_ := find EOI data (start + 2) in
     0 <= start /\ start + 2 <= end_ /\
     frame = slice data start (end_ + 2)) /\
    firstn 2 frame = [xff; xd8] /\
    skipn (length frame - 2) frame = [xff; xd9] /\
    (4 <= length frame)%nat.
Proof.
  apply (yielded_chunk_wraps_a_frame demo_env 1
           [ReadBytes [x00; xff; xd8; xaa]; ReadBytes [xbb; xff; xd9; x01]]
           [Next]).
  vm_compute. right. right. right. left. reflexivity.
Defined.

(** C8, as stated, fails: after the chunk [00 FF D8 AA] the generator
    reads again with the buffer [00 FF D8 AA], which is neither empty nor
    the bytes of a frame in progress alone: its first byte comes before the
    start marker and belongs to no frame. *)
Lemma read_with_byte_before_start_marker :
  In (EvRead 4096 [x00; xff; xd8; xaa])
     (snd (drive demo_env [Next] (generate_frames 1)
             [ReadBytes [x00; xff; xd8; xaa]])) /\
  ~ ([x00; xff; xd8; xaa] = [] \/ firstn 2 [x00; xff; xd8; xaa] = SOI).
Proof.
  split.
  - vm_compute. right. right. left. reflexivity.
  - intros [H|H]; discriminate H.
Qed.

(** C8, amended -- At every read of every execution of [generate_frames]
    the buffer holds no start marker followed by a later end marker: it is
    made of bytes without a start marker, which belong to no frame,
    followed by at most one frame in progress, a start marker and bytes
    without an end marker. *)
Theorem buffer_at_read_has_no_complete_frame (w : env) (stream_id : Z)
    (src : byte_source) (acts : list action) (size : Z) (data : bytes) :
  In (EvRead size data)
     (snd (drive w acts (generate_frames stream_id) src)) ->
  (forall s e : nat,
      occurs_at SOI data s -> occurs_at EOI data e -> ~ (s < e)%nat) /\
  exists junk partial : bytes,
    data = junk ++ partial /\
    (forall i : nat, ~ occurs_at SOI junk i) /\
    (partial = [] \/
     (firstn 2 partial = SOI /\ forall j : nat, ~ occurs_at EOI partial j)).
Proof.
  intros Hin.
  pose proof (drive_events_ok w acts (generate_frames stream_id) src) as Hok.
  destruct (drive w acts (generate_frames stream_id) src) as [[g src'] evs].
  simpl in Hin. rewrite Forall_forall in Hok.
  pose proof (Hok _ Hin) as Hs. simpl in Hs.
  apply scan_step_None_iff in Hs. split.
  - intros s e Hso He Hlt. exact (Hs s e Hso He Hlt).
  - apply no_complete_pair_shape, Hs.
Qed.

Lemma buffer_at_read_has_no_complete_frame_witness :
  exists junk partial : bytes,
    [x00; xff; xd8; xaa] = junk ++ partial /\
    (forall i : nat, ~ occurs_at SOI junk i) /\
    (partial = [] \/
     (firstn 2 partial = SOI /\ forall j : nat, ~ occurs_at EOI partial j)).
Proof.
  refine (proj2 (buffer_at_read_has_no_complete_frame demo_env 1
                   [ReadBytes [x00; xff; xd8; xaa]] [Next]
                   4096 [x00; xff; xd8; xaa] _)).
  vm_compute. right. right. left. reflexivity.
Defined.

(** C9 -- When the byte source gives a read of zero bytes, a generator
    suspended with any buffer yields the complete frames the buffer still
    holds, then reads, kills the process and finishes normally
    ([StopIteration]); the bytes left in the buffer by then are in no chunk
    yielded, and nothing is yielded afterwards. *)
Theorem zero_byte_read_discards_residue (w : env) (data : bytes)
    (src : byte_source) (more : list action) :
  let frames := fst (drain data) in
  let rest := snd (drain data) in
  gen_next w (GenSuspended rest) (ReadBytes [] :: src) =
    (Return, GenClosed, src, [EvRead 4096 rest; EvKill; EvExit]) /\
  drive w (repeat Next (length frames) ++ Next :: more) (GenSuspended data)
        (ReadBytes [] :: src) =
    (GenClosed, src,
     map EvYield (map multipart frames) ++ [EvRead 4096 rest; EvKill; EvExit]) /\
  yields (map EvYield (map multipart frames) ++ [EvRead 4096 rest; EvKill; EvExit])
    = map multipart frames.
Proof.
  intros frames rest. subst frames rest.
  assert (Hnext : gen_next w (GenSuspended (snd (drain data)))
                    (ReadBytes [] :: src) =
                  (Return, GenClosed, src,
                   [EvRead 4096 (snd (drain data)); EvKill; EvExit])).
  { rewrite gen_next_suspended, (resume_break _ _ (drain_exits _)).
    reflexivity. }
  repeat split.
  - exact Hnext.
  - rewrite drive_app, drive_drain, drive_cons.
    change (gen_do w Next) with (gen_next w).
    rewrite Hnext. simpl. rewrite drive_closed. reflexivity.
  - unfold yields. rewrite flat_map_app. simpl. rewrite app_nil_r.
    induction (map multipart (fst (drain data))) as [|c l IH];
      [reflexivity|]. simpl. rewrite IH. reflexivity.
Qed.

(** A frame in progress at the end of the stream is dropped. *)
Example partial_frame_dropped_at_end_of_stream :
  drive demo_env [Next; Next] (generate_frames 1)
    [ReadBytes [xff; xd8; xaa; xff; xd9; xff; xd8; xbb]; ReadBytes []] =
  (GenClosed, [],
   [EvPopen (command "rtsp://camera/live" "5" "640x480" 15);
    EvRead 4096 []; EvYield (multipart [xff; xd8; xaa; xff; xd9]);
    EvRead 4096 [xff; xd8; xbb]; EvKill; EvExit]).
Proof. reflexivity. Qed.




(** * Further properties of the code *)

(** ** The registry: rows and keys *)

Lemma select_stream_app (db db' : database) (stream_id : Z) :
  select_stream (db ++ db') stream_id =
  select_stream db stream_id ++ select_stream db' stream_id.
Proof. unfold select_stream. rewrite filter_app, map_app. reflexivity. Qed.


Lemma next_rowid_positive (db : database) : 1 <= next_rowid db.
Proof.
  unfold next_rowid. induction db as [|r db IH]; simpl; lia.
Qed.

Lemma ids_add_stream (url quality resolution : string) (fps : Z)
    (db : database) :
  int64 fps = true ->
  ids (fst (add_stream url quality resolution fps db))
    = ids db ++ [next_rowid db].
Proof.
  intros Hfps. rewrite (add_stream_stored _ _ _ _ _ Hfps).
  unfold ids, fst. rewrite map_app. reflexivity.
Qed.

Lemma ids_below_next (db : database) :
  Forall (fun k => k < next_rowid db) (ids db).
Proof.
  unfold ids. rewrite Forall_map, Forall_forall. apply next_rowid_above.
Qed.

Lemma remove_stream_unknown (stream_id : Z) (db : database) :
  (forall r, In r db -> row_id r <> stream_id) ->
  remove_stream stream_id db = db.
Proof.
  unfold remove_stream. induction db as [|r db IH]; intros Hno; [reflexivity|].
  simpl. destruct (Z.eqb_spec (row_id r) stream_id) as [Heq|_].
  - exfalso. exact (Hno r (or_introl eq_refl) Heq).
  - simpl. f_equal. apply IH. intros r' Hin. apply Hno. right. exact Hin.
Qed.

Lemma select_stream_removed (stream_id : Z) (db : database) :
  select_stream (remove_stream stream_id db) stream_id = [].
Proof.
  apply select_stream_unknown. intros r Hin. unfold remove_stream in Hin.
  apply filter_In in Hin. destruct Hin as [_ Hne].
  destruct (Z.eqb_spec (row_id r) stream_id); [discriminate|assumption].
Qed.

Lemma select_stream_remove_other (stream_id other : Z) (db : database) :
  other <> stream_id ->
  select_stream (remove_stream stream_id db) other = select_stream db other.
Proof.
  intros Hne. unfold select_stream, remove_stream.
  induction db as [|r db IH]; [reflexivity|]. simpl.
  destruct (Z.eqb_spec (row_id r) stream_id) as [Heq|Hneq]; simpl.
  - destruct (Z.eqb_spec (row_id r) other) as [Heq'|_]; [lia|exact IH].
  - destruct (Z.eqb_spec (row_id r) other); simpl; rewrite IH; reflexivity.
Qed.

(** Strictly increasing keys. *)
Lemma sorted_snoc (l : list Z) (x : Z) :
  StronglySorted Z.lt l -> Forall (fun k => k < x) l ->
  StronglySorted Z.lt (l ++ [x]).
Proof.
  induction 1 as [|a l Hs IH Ha]; intros Hx; simpl.
  - repeat constructor.
  - inversion Hx as [|? ? Hax Hlx]; subst. constructor; [apply IH, Hlx|].
    apply Forall_app. split; [exact Ha | repeat constructor; exact Hax].
Qed.

Lemma sorted_remove_stream (stream_id : Z) (db : database) :
  StronglySorted Z.lt (ids db) ->
  StronglySorted Z.lt (ids (remove_stream stream_id db)).
Proof.
  unfold ids, remove_stream. induction db as [|r db IH]; intros Hs; simpl.
  - constructor.
  - simpl in Hs. apply StronglySorted_inv in Hs. destruct Hs as [Hs Hr].
    destruct (negb (row_id r =? stream_id)); simpl; [|apply IH, Hs].
    constructor; [apply IH, Hs|].
    rewrite Forall_map in Hr |- *. rewrite Forall_forall in Hr |- *.
    intros r' Hin. apply Hr. apply filter_In in Hin. apply Hin.
Qed.

Lemma sorted_ids_nodup (l : list Z) : StronglySorted Z.lt l -> NoDup l.
Proof.
  induction 1 as [|a l Hs IH Ha]; constructor; [|exact IH].
  intros Hin. rewrite Forall_forall in Ha. specialize (Ha a Hin). lia.
Qed.

(** With increasing keys a row is the only one its key selects. *)
Lemma select_stream_row (db : database) (r : stream_row) :
  StronglySorted Z.lt (ids db) -> In r db ->
  select_stream db (row_id r) =
  [(row_url r, row_quality r, row_resolution r, row_fps r)].
Proof.
  unfold ids. induction db as [|r' db IH]; intros Hs Hin; [contradiction|].
  simpl in Hs. apply StronglySorted_inv in Hs. destruct Hs as [Hs Hr'].
  rewrite Forall_map, Forall_forall in Hr'.
  change (r' :: db) with ([r'] ++ db). rewrite select_stream_app.
  destruct Hin as [->|Hin].
  - unfold select_stream at 1. simpl. rewrite Z.eqb_refl. simpl.
    rewrite select_stream_unknown; [reflexivity|].
    intros r0 Hin0. specialize (Hr' r0 Hin0). lia.
  - unfold select_stream at 1. simpl.
    specialize (Hr' r Hin).
    destruct (Z.eqb_spec (row_id r') (row_id r)) as [Heq|_]; [lia|].
    simpl. apply IH; assumption.
Qed.

Lemma select_stream_at_most_one (db : database) (stream_id : Z) :
  StronglySorted Z.lt (ids db) ->
  (length (select_stream db stream_id) <= 1)%nat.
Proof.
  intros Hs.
  destruct (filter (fun r => row_id r =? stream_id) db) as [|r l] eqn:Hf.
  - unfold select_stream. rewrite Hf. simpl. lia.
  - assert (Hin : In r (filter (fun r => row_id r =? stream_id) db))
      by (rewrite Hf; left; reflexivity).
    apply filter_In in Hin. destruct Hin as [Hin Heq].
    apply Z.eqb_eq in Heq. subst stream_id.
    rewrite (select_stream_row db r Hs Hin). simpl. lia.
Qed.

Lemma apply_op_ok (db : database) (op : registry_op) :
  registry_ok db -> registry_ok (apply_op db op).
Proof.
  intros [Hs Hall]. destruct op as [url quality resolution fps|stream_id];
    cbn [apply_op];
    [destruct (int64 fps) eqn:Hfps;
     [|rewrite (add_stream_refused _ _ _ _ _ Hfps); split; assumption]|];
    split.
  - rewrite (ids_add_stream _ _ _ _ _ Hfps).
    apply sorted_snoc; [exact Hs|apply ids_below_next].
  - rewrite (add_stream_stored _ _ _ _ _ Hfps). cbn [fst].
    apply Forall_app. split; [exact Hall|].
    repeat constructor. simpl. apply next_rowid_positive.
  - apply sorted_remove_stream, Hs.
  - unfold remove_stream. rewrite Forall_forall in Hall |- *.
    intros r Hin. apply Hall. apply filter_In in Hin. apply Hin.
Qed.

Lemma run_ops_ok (ops : list registry_op) (db : database) :
  registry_ok db -> registry_ok (run_ops ops db).
Proof.
  unfold run_ops. revert db; induction ops as [|op ops IH]; intros db Hok;
    [exact Hok|].
  simpl. apply IH, apply_op_ok, Hok.
Qed.

Lemma registry_ok_empty : registry_ok [].
Proof. split; constructor. Qed.



(** X2 -- After every history of [add_stream] and [remove_stream] calls on
    an empty table the keys are strictly increasing along the table (so no
    two rows share a key, and a listing is in key order), every key is at
    least [1] and below the next key to be assigned, every row is active,
    and an id selects at most one row. *)
Theorem registry_keys_increasing (ops : list registry_op) :
  let db := run_ops ops [] in
  StronglySorted Z.lt (ids db) /\
  NoDup (ids db) /\
  Forall (fun r => 1 <= row_id r < next_rowid db /\ row_active r = 1) db /\
  forall stream_id, (length (select_stream db stream_id) <= 1)%nat.
Proof.
  cbv zeta. destruct (run_ops_ok ops [] registry_ok_empty) as [Hs Hall].
  split; [exact Hs|]. split; [apply sorted_ids_nodup, Hs|]. split.
  - rewrite Forall_forall in Hall |- *. intros r Hin.
    destruct (Hall r Hin) as [H1 Ha].
    pose proof (next_rowid_above _ r Hin). repeat split; assumption.
  - intros stream_id. apply select_stream_at_most_one, Hs.
Qed.

(** X3 -- After [remove_stream] the id selects no row, whatever the table
    held (several rows with that key included), every other id selects
    what it selected before, and [generate_frames] on the removed id
    yields nothing, starts no process and reads nothing. *)
Theorem remove_stream_forgets_the_stream (stream_id other : Z)
    (db : database) (starts : bool) (acts : list action)
    (src : byte_source) :
  other <> stream_id ->
  select_stream (remove_stream stream_id db) stream_id = [] /\
  select_stream (remove_stream stream_id db) other = select_stream db other /\
  exists g,
    drive {| registry := remove_stream stream_id db; ffmpeg_starts := starts |}
          acts (generate_frames stream_id) src = (g, src, []).
Proof.
  intros Hne. split; [apply select_stream_removed|].
  split; [apply select_stream_remove_other, Hne|].
  apply drive_unknown_id. simpl. rewrite select_stream_removed. reflexivity.
Qed.

Lemma remove_stream_forgets_the_stream_witness :
  select_stream
    (remove_stream 1 (fst (add_stream "rtsp://door" "31" "320x240" 5
                             (registry demo_env)))) 2
  = [("rtsp://door", "31", "320x240", 5)]%string.
Proof.
  refine (eq_trans (proj1 (proj2 (remove_stream_forgets_the_stream 1 2
    (fst (add_stream "rtsp://door" "31" "320x240" 5 (registry demo_env)))
    true [] [] _))) _).
  - discriminate.
  - reflexivity.
Defined.

Lemma remove_stream_twice (a b : Z) (db : database) :
  remove_stream a (remove_stream b db) = remove_stream b (remove_stream a db).
Proof.
  unfold remove_stream. induction db as [|r db IH]; [reflexivity|]. simpl.
  destruct (negb (row_id r =? b)) eqn:Hb, (negb (row_id r =? a)) eqn:Ha;
    simpl; rewrite ?Ha, ?Hb, IH; reflexivity.
Qed.

(** X4 -- [remove_stream_endpoint] on an id the table does not hold leaves
    the table as it was.  For an id within the signed 64-bit range it
    answers [success] all the same; for a larger id, which the route
    accepts as well, the [DELETE] raises [OverflowError] and the answer is a
    server error.  In either case removing twice is removing once, and two
    removals commute. *)
Theorem remove_unknown_stream_is_silent (stream_id other : Z)
    (db : database) :
  (forall r, In r db -> row_id r <> stream_id) ->
  fst (remove_stream_endpoint stream_id db) = db /\
  snd (remove_stream_endpoint stream_id db) =
    (if int64 stream_id then Success else ServerError OverflowError) /\
  fst (remove_stream_endpoint stream_id
         (fst (remove_stream_endpoint stream_id db))) =
    fst (remove_stream_endpoint stream_id db) /\
  fst (remove_stream_endpoint stream_id
         (fst (remove_stream_endpoint other db))) =
    fst (remove_stream_endpoint other
           (fst (remove_stream_endpoint stream_id db))).
Proof.
  intros Hno. pose proof (remove_stream_unknown stream_id db Hno) as Hsame.
  unfold remove_stream_endpoint.
  destruct (int64 stream_id), (int64 other); cbn [fst snd];
    rewrite ?Hsame; repeat split; try reflexivity.
  all: apply remove_stream_unknown; intros r Hin;
    unfold remove_stream in Hin; apply filter_In in Hin; apply Hno, Hin.
Qed.

Lemma remove_unknown_stream_is_silent_witness :
  remove_stream_endpoint 9 (registry demo_env)
    = (registry demo_env, Success) /\
  remove_stream_endpoint 9223372036854775808 (registry demo_env)
    = (registry demo_env, ServerError OverflowError).
Proof.
  split.
  - assert (Hno : forall r, In r (registry demo_env) -> row_id r <> 9)
      by (intros r [<-|[]]; simpl; discriminate).
    destruct (remove_unknown_stream_is_silent 9 1 (registry demo_env) Hno)
      as (H1 & H2 & _).
    destruct (remove_stream_endpoint 9 (registry demo_env)) as [db a].
    simpl in H1, H2. rewrite H1, H2. reflexivity.
  - assert (Hno : forall r, In r (registry demo_env) ->
                            row_id r <> 9223372036854775808)
      by (intros r [<-|[]]; simpl; discriminate).
    destruct (remove_unknown_stream_is_silent 9223372036854775808 1
                (registry demo_env) Hno) as (H1 & H2 & _).
    destruct (remove_stream_endpoint 9223372036854775808
                (registry demo_env)) as [db a].
    simpl in H1, H2. rewrite H1, H2. reflexivity.
Defined.



(** X6 -- After every history of calls, each row that [index] lists
    resolves, through the query of [generate_frames] on the id shown, to
    the url and settings of that same row, and the first [next] starts the
    decoder on them: no listed link is dead or points to another stream. *)
Theorem listed_stream_resolves_to_itself (ops : list registry_op)
    (stream_id active fps : Z) (url quality resolution : string)
    (src : byte_source) :
  let db := run_ops ops [] in
  In (stream_id, url, active, quality, resolution, fps) (select_all db) ->
  one (select_stream db stream_id) = Some (url, quality, resolution, fps) /\
  gen_next {| registry := db; ffmpeg_starts := true |}
           (generate_frames stream_id) src =
  log (EvPopen (command url quality resolution fps)) (outer_loop [] src).
Proof.
  cbv zeta. intros Hin. unfold select_all in Hin.
  apply in_map_iff in Hin. destruct Hin as (r & Heq & Hin).
  injection Heq as <- <- <- <- <- <-.
  destruct (run_ops_ok ops [] registry_ok_empty) as [Hs _].
  pose proof (select_stream_row _ r Hs Hin) as Hsel. split.
  - rewrite Hsel. reflexivity.
  - unfold gen_next, generate_frames. cbn [registry ffmpeg_starts].
    rewrite Hsel. reflexivity.
Qed.

Lemma listed_stream_resolves_to_itself_witness :
  one (select_stream
         (run_ops [OpAdd "rtsp://a" "2" "640x480" 25; OpRemove 1;
                   OpAdd "rtsp://b" "7" "320x240" 10;
                   OpAdd "rtsp://c" "9" "160x120" 5] []) 2)
  = Some ("rtsp://c", "9", "160x120", 5)%string.
Proof.
  refine (proj1 (listed_stream_resolves_to_itself
    [OpAdd "rtsp://a" "2" "640x480" 25; OpRemove 1;
     OpAdd "rtsp://b" "7" "320x240" 10;
     OpAdd "rtsp://c" "9" "160x120" 5] 2 1 5 "rtsp://c" "9" "160x120" [] _)).
  vm_compute. right. left. reflexivity.
Defined.

(** ** What a pass cuts and what it skips *)

Lemma scan_step_cut (data frame rest : bytes) :
  scan_step data = Some (frame, rest) ->
  exists s e : nat,
    search SOI data = Some s /\
    search EOI (skipn (s + 2) data) = Some e /\
    frame = firstn (e + 4) (skipn s data) /\
    rest = skipn (s + e + 4) data.
Proof.
  rewrite scan_step_search.
  destruct (search SOI data) as [s|] eqn:Hs; [|discriminate].
  destruct (search EOI (skipn (s + 2) data)) as [e|] eqn:He; [|discriminate].
  intros [= <- <-]. exists s, e. auto.
Qed.

(** The bytes before the first start marker hold no start marker. *)
Lemma no_start_marker_before_first (data : bytes) (s i : nat) :
  search SOI data = Some s -> ~ occurs_at SOI (firstn s data) i.
Proof.
  intros Hs Hi. unfold occurs_at in Hi. simpl length in Hi.
  rewrite skipn_firstn_comm, firstn_firstn in Hi.
  destruct (le_lt_dec (i + 2) s) as [Hle|Hgt].
  - replace (Nat.min 2 (s - i)) with 2%nat in Hi by lia.
    assert (Hlt : (i < s)%nat) by lia.
    pose proof (search_first _ _ _ _ Hs Hlt) as Hf.
    apply (proj1 (occurs_at_startswith SOI data i)) in Hi. congruence.
  - apply (f_equal (@length byte)) in Hi.
    rewrite length_firstn, length_skipn in Hi.
    change (length SOI) with 2%nat in Hi. lia.
Qed.

Lemma scan_step_frame_tight (data frame rest : bytes) :
  scan_step data = Some (frame, rest) -> tight_span frame.
Proof.
  intros H. destruct (scan_step_yield _ _ _ H)
    as (s0 & e0 & Hs0 & He0 & _ & Hl & Hb & Hend).
  destruct (scan_step_cut _ _ _ H) as (s & e & Hs & He & Hf & _).
  assert (s0 = s) by congruence. subst s0.
  assert (e0 = e) by congruence. subst e0.
  split.
  - split; [exact Hb|]. rewrite Hl.
    replace (e + 4 - 2)%nat with (e + 2)%nat by lia. exact Hend.
  - intros j Hj Hlt Hocc. rewrite Hl in Hlt.
    unfold occurs_at in Hocc. simpl length in Hocc. rewrite Hf in Hocc.
    rewrite skipn_firstn_comm, firstn_firstn, skipn_skipn in Hocc.
    replace (Nat.min 2 (e + 4 - j)) with 2%nat in Hocc by lia.
    assert (Hlt' : (j - 2 < e)%nat) by lia.
    pose proof (search_first _ _ _ _ He Hlt') as Hfalse.
    rewrite skipn_skipn in Hfalse.
    replace (j - 2 + (s + 2))%nat with (j + s)%nat in Hfalse by lia.
    apply (proj2 (startswith_true_iff EOI _)) in Hocc. congruence.
Qed.

(** One call of [next] that yields: the buffer it started with, then the
    chunks it read, are skipped bytes, the frame, and the buffer it leaves. *)
Lemma resume_cut (data : bytes) (src : byte_source) :
  forall (chunk : bytes) (g' : generator) (src' : byte_source)
         (evs : list event),
    resume data src = (Yield chunk, g', src', evs) ->
    exists (frame skipped rest : bytes) (consumed : list bytes),
      chunk = multipart frame /\
      g' = GenSuspended rest /\
      src = map ReadBytes consumed ++ src' /\
      data ++ concat consumed = skipped ++ frame ++ rest /\
      (forall i : nat, ~ occurs_at SOI skipped i) /\
      tight_span frame.
Proof.
  apply (resume_ind (fun data src r =>
    forall chunk g' src' evs,
      r = (Yield chunk, g', src', evs) ->
      exists (frame skipped rest : bytes) (consumed : list bytes),
        chunk = multipart frame /\
        g' = GenSuspended rest /\
        src = map ReadBytes consumed ++ src' /\
        data ++ concat consumed = skipped ++ frame ++ rest /\
        (forall i : nat, ~ occurs_at SOI skipped i) /\
        tight_span frame)); clear data src.
  - intros data src frame data' Hs chunk g' src' evs [= <- <- <- <-].
    destruct (scan_step_yield _ _ _ Hs) as (s & e & Hss & _ & Hd & _).
    exists frame, (firstn s data), data', []. repeat split.
    + simpl. rewrite app_nil_r. exact Hd.
    + intros i. apply no_start_marker_before_first, Hss.
    + apply (scan_step_frame_tight _ _ _ Hs).
    + apply (scan_step_frame_tight _ _ _ Hs).
    + apply (scan_step_frame_tight _ _ _ Hs).
  - intros; discriminate.
  - intros; discriminate.
  - intros; discriminate.
  - intros data b chunk0 src _ IH chunk g' src' evs Hr.
    destruct (resume (data ++ b :: chunk0) src) as [[[o1 g1] src1] evs1].
    cbn [log] in Hr. injection Hr as -> -> -> <-.
    destruct (IH chunk g' src' evs1 eq_refl)
      as (frame & skipped & rest & consumed & Hc & Hg & Hsrc & Hd & Hk & Ht).
    exists frame, skipped, rest, ((b :: chunk0) :: consumed).
    repeat split; try assumption; try apply Ht.
    + simpl. rewrite Hsrc. reflexivity.
    + simpl concat. rewrite <- Hd, <- app_assoc. reflexivity.
Qed.

(** X7 -- Every call of [next] that yields a chunk has cut its frame as
    follows: the buffer the generator held before the call, followed by the
    chunks the call read from the source, is made of skipped bytes, the
    frame, and the buffer the generator holds afterwards, in this order; the
    skipped bytes hold no start marker (only bytes before the first start
    marker are dropped); the frame runs from that start marker to the first
    end marker from its third byte on and holds no end marker in between;
    and splitting is idempotent: the frame fed alone to the splitter comes
    back as the one frame, with an empty buffer. *)
Theorem yielded_frame_is_minimal (w : env) (g g' : generator)
    (src src' : byte_source) (chunk : bytes) (evs : list event) :
  gen_next w g src = (Yield chunk, g', src', evs) ->
  exists (frame skipped rest : bytes) (consumed : list bytes),
    chunk = multipart frame /\
    g' = GenSuspended rest /\
    src = map ReadBytes consumed ++ src' /\
    buffer_of g ++ concat consumed = skipped ++ frame ++ rest /\
    (forall i : nat, ~ occurs_at SOI skipped i) /\
    (forall j : nat, (2 <= j)%nat -> (j + 2 < length frame)%nat ->
                     ~ occurs_at EOI frame j) /\
    feed [] frame = ([frame], []).
Proof.
  intros Hnext.
  assert (Hcut : exists data evs0,
             buffer_of g = data /\
             resume data src = (Yield chunk, g', src', evs0)).
  { destruct g as [stream_id|data|].
    - rewrite gen_next_created in Hnext.
      destruct (one _) as [[[[u q] res] f]|];
        [|destruct (int64 stream_id); discriminate].
      destruct (ffmpeg_starts w); [|discriminate].
      destruct (resume [] src) as [[[o1 g1] src1] evs1] eqn:Hres.
      cbn [log] in Hnext. injection Hnext as -> -> -> _.
      exists [], evs1. split; [reflexivity|exact Hres].
    - exists data, evs. split; [reflexivity|exact Hnext].
    - discriminate. }
  destruct Hcut as (data & evs0 & Hbuf & Hres). rewrite Hbuf.
  destruct (resume_cut data src chunk g' src' evs0 Hres)
    as (frame & skipped & rest & consumed & Hc & Hg & Hsrc & Hd & Hk & Ht).
  exists frame, skipped, rest, consumed. repeat split; try assumption.
  - apply Ht.
  - pose proof (drain_tight_spans [frame]
                  (Forall_cons _ Ht (Forall_nil _))) as Hdr.
    simpl in Hdr. rewrite app_nil_r in Hdr. exact Hdr.
Qed.

Lemma yielded_frame_is_minimal_witness :
  exists (frame skipped rest : bytes) (consumed : list bytes),
    multipart [xff; xd8; xaa; xff; xd9] = multipart frame /\
    GenSuspended [xff; xd9] = GenSuspended rest /\
    [ReadBytes [xd9; xff]; ReadBytes [xd8; xaa; xff; xd9; xff; xd9];
     ReadBytes [x01]] = map ReadBytes consumed ++ [ReadBytes [x01]] /\
    buffer_of (GenSuspended [x00; xff]) ++ concat consumed
      = skipped ++ frame ++ rest /\
    (forall i : nat, ~ occurs_at SOI skipped i) /\
    (forall j : nat, (2 <= j)%nat -> (j + 2 < length frame)%nat ->
                     ~ occurs_at EOI frame j) /\
    feed [] frame = ([frame], []).
Proof.
  apply (yielded_frame_is_minimal demo_env (GenSuspended [x00; xff])
           (GenSuspended [xff; xd9])
           [ReadBytes [xd9; xff]; ReadBytes [xd8; xaa; xff; xd9; xff; xd9];
            ReadBytes [x01]]
           [ReadBytes [x01]]
           (multipart [xff; xd8; xaa; xff; xd9])
           [EvRead 4096 [x00; xff]; EvRead 4096 [x00; xff; xd9; xff];
            EvYield (multipart [xff; xd8; xaa; xff; xd9])]).
  reflexivity.
Defined.

(** ** Bytes in, bytes out *)

Lemma drain_lengths (data : bytes) :
  (length (concat (fst (drain data))) + length (snd (drain data))
   <= length data)%nat /\
  (4 * length (fst (drain data)) <= length (concat (fst (drain data))))%nat.
Proof.
  apply (drain_ind (fun data frames rest =>
    (length (concat frames) + length rest <= length data)%nat /\
    (4 * length frames <= length (concat frames))%nat)).
  - intros d _. simpl. lia.
  - intros d frame d' frames rest Hs _ [IH1 IH2].
    destruct (scan_step_yield _ _ _ Hs) as (s & e & _ & _ & Hd & Hl & _).
    apply (f_equal (@length byte)) in Hd. rewrite !length_app in Hd.
    simpl concat. rewrite length_app. simpl length. lia.
Qed.

(** X8 -- The splitter never makes bytes: the frames cut from a buffer and
    the bytes left in it are together no longer than the buffer, a buffer
    of [n] bytes gives at most [n / 4] frames, and a buffer of fewer than
    four bytes gives none and is kept whole. *)
Theorem frames_no_longer_than_buffer (data : bytes) :
  let frames := fst (drain data) in
  let rest := snd (drain data) in
  (length (concat frames) + length rest <= length data)%nat /\
  (4 * length frames <= length data)%nat /\
  ((length data < 4)%nat -> drain data = ([], data)).
Proof.
  cbv zeta. destruct (drain_lengths data) as [H1 H2].
  split; [exact H1|]. split; [lia|].
  intros Hshort. rewrite drain_unfold.
  destruct (scan_step data) as [[frame d']|] eqn:Hs; [|reflexivity].
  apply scan_step_shrinks in Hs. lia.
Qed.

Lemma frames_no_longer_than_buffer_witness :
  drain [xff; xd8; xd9] = ([], [xff; xd8; xd9]).
Proof.
  apply (proj2 (proj2 (frames_no_longer_than_buffer [xff; xd8; xd9]))).
  simpl. lia.
Defined.

(** ** A stream in which no frame completes *)

Lemma yields_reads (buffers : nat -> bytes) (l : list nat) :
  yields (map (fun k => EvRead 4096 (buffers k)) l) = [].
Proof. induction l as [|k l IH]; [reflexivity|exact IH]. Qed.

(** X9 -- While no frame completes the buffer only grows: when the bytes
    received hold no start marker followed by a later end marker, one call
    of [next] reads the source to its end without yielding, the buffer at
    the [k]-th read is every byte received so far (nothing is dropped, no
    bound is applied), and the call ends with the [kill]. *)
Theorem buffer_grows_while_no_frame_completes (w : env) (data : bytes)
    (chunks : list bytes) :
  Forall (fun chunk => chunk <> []) chunks ->
  no_complete_pair (data ++ concat chunks) ->
  gen_next w (GenSuspended data) (map ReadBytes chunks) =
    (Return, GenClosed, [],
     map (fun k => EvRead 4096 (data ++ concat (firstn k chunks)))
         (seq 0 (S (length chunks))) ++ [EvKill; EvExit]) /\
  In (EvRead 4096 (data ++ concat chunks))
     (r_events (gen_next w (GenSuspended data) (map ReadBytes chunks))) /\
  yields (r_events (gen_next w (GenSuspended data) (map ReadBytes chunks)))
    = [].
Proof.
  intros Hne Hno. apply scan_step_None_iff in Hno.
  pose proof (resume_stops [] chunks eq_refl Hne data Hno) as Hres.
  rewrite app_nil_r in Hres. rewrite gen_next_suspended, Hres.
  split; [reflexivity|]. cbn [r_events]. split.
  - apply in_or_app. left. apply in_map_iff. exists (length chunks). split.
    + rewrite firstn_all. reflexivity.
    + apply in_seq. lia.
  - rewrite yields_app,
      (yields_reads (fun k => data ++ concat (firstn k chunks))).
    reflexivity.
Qed.

Lemma buffer_grows_while_no_frame_completes_witness :
  gen_next demo_env (GenSuspended [xff; xd8])
    (map ReadBytes [[x01; x02]; [xff]; [xd8; x03]]) =
  (Return, GenClosed, [],
   [EvRead 4096 [xff; xd8];
    EvRead 4096 [xff; xd8; x01; x02];
    EvRead 4096 [xff; xd8; x01; x02; xff];
    EvRead 4096 [xff; xd8; x01; x02; xff; xd8; x03];
    EvKill; EvExit]).
Proof.
  refine (proj1 (buffer_grows_while_no_frame_completes demo_env [xff; xd8]
                   [[x01; x02]; [xff]; [xd8; x03]] _ _)).
  - repeat constructor; discriminate.
  - apply scan_step_None_iff. reflexivity.
Defined.

(** ** A registered stream, from its start to the stop *)

(** X10 -- For a registered stream whose decoder starts, with a source
    that delivers non-empty chunks and then stops (end of the stream, a
    read of zero bytes, or a read that raises), [n] calls of [next] yield
    the first [n] frames of the bytes delivered, in stream order, each
    once; when more calls are made than there are frames the generator is
    finished, has killed the process once, and has read nothing after the
    stop. *)
Theorem frames_in_stream_order_until_the_stop (w : env) (stream_id : Z)
    (row : string * string * string * Z) (chunks : list bytes)
    (tail : byte_source) (n : nat) :
  one (select_stream (registry w) stream_id) = Some row ->
  ffmpeg_starts w = true ->
  Forall (fun chunk => chunk <> []) chunks ->
  ends_stream tail = true ->
  let frames := fst (drain (concat chunks)) in
  let run := drive w (repeat Next n) (generate_frames stream_id)
                   (map ReadBytes chunks ++ tail) in
  yields (snd run) = firstn n (map multipart frames) /\
  ((length frames < n)%nat ->
   fst run = (GenClosed, tl tail) /\ count_kill (snd run) = 1%nat).
Proof.
  intros Hrow Hstart Hne Hstop. cbv zeta.
  destruct n as [|n]; [split; [reflexivity | intros Hlt; exfalso; lia]|].
  simpl repeat.
  destruct (drive_started w stream_id (repeat Next n)
              (map ReadBytes chunks ++ tail) row Hrow Hstart)
    as (Hstate & cmd & Hevs).
  destruct (drive_stream_that_stops w tail chunks Hstop Hne [] (S n))
    as [Hy Hs].
  simpl repeat in Hy, Hs. simpl app in Hy, Hs.
  rewrite Hstate, Hevs. split; [exact Hy|].
  intros Hlt. specialize (Hs Hlt). split; [exact Hs|].
  pose proof (drive_account w (Next :: repeat Next n) (GenSuspended [])
                (map ReadBytes chunks ++ tail)) as Hacc.
  destruct (drive w (Next :: repeat Next n) (GenSuspended []) _)
    as [[g src'] evs].
  simpl in Hs. injection Hs as -> _. destruct Hacc as (Hk & Hp & _).
  simpl in Hk, Hp |- *. unfold count_kill in *. simpl. lia.
Qed.

Lemma frames_in_stream_order_until_the_stop_witness :
  yields (snd (drive demo_env (repeat Next 3) (generate_frames 1)
                 (map ReadBytes [[xff; xd8; x01; xff]; [xd9; xff; xd8; x02];
                                 [xff; xd9; xff; xd8]]
                  ++ [ReadError; ReadBytes [x03; xff; xd9]]))) =
  [multipart [xff; xd8; x01; xff; xd9]; multipart [xff; xd8; x02; xff; xd9]].
Proof.
  refine (eq_trans (proj1 (frames_in_stream_order_until_the_stop demo_env 1
    ("rtsp://camera/live", "5", "640x480", 15)%string
    [[xff; xd8; x01; xff]; [xd9; xff; xd8; x02]; [xff; xd9; xff; xd8]]
    [ReadError; ReadBytes [x03; xff; xd9]] 3 _ _ _ _)) _).
  - reflexivity.
  - reflexivity.
  - repeat constructor; discriminate.
  - reflexivity.
  - reflexivity.
Defined.

(** ** A session and the registry *)

Lemma gen_do_ignores_registry (w w' : env) (a : action) (g : generator)
    (src : byte_source) :
  unstarted g = 0%nat -> gen_do w a g src = gen_do w' a g src.
Proof. destruct a, g; simpl; intros H; try discriminate; reflexivity. Qed.

Lemma drive_ignores_registry (w w' : env) (acts : list action)
    (g : generator) (src : byte_source) :
  unstarted g = 0%nat -> drive w acts g src = drive w' acts g src.
Proof.
  revert g src; induction acts as [|a acts IH]; intros g src Hg;
    [reflexivity|].
  rewrite !drive_cons. cbv zeta.
  rewrite (gen_do_ignores_registry w w' a g src Hg).
  destruct (gen_do_account w' a g src) as (_ & _ & Hu).
  rewrite (IH _ _ Hu). reflexivity.
Qed.

(** X11 -- The registry is read by the first [next] only: whatever happens
    to the table afterwards (the stream removed, its row replaced), and
    whether or not the decoder could still be started, the calls that
    follow behave as if nothing had changed; a running decoder is not
    killed by [remove_stream]. *)
Theorem running_session_ignores_registry (w w' : env) (stream_id : Z)
    (acts : list action) (src : byte_source) (data : bytes) :
  drive w' acts (r_gen (gen_next w (generate_frames stream_id) src))
        (r_source (gen_next w (generate_frames stream_id) src)) =
  drive w acts (r_gen (gen_next w (generate_frames stream_id) src))
        (r_source (gen_next w (generate_frames stream_id) src)) /\
  drive {| registry := remove_stream stream_id (registry w);
           ffmpeg_starts := ffmpeg_starts w |} acts (GenSuspended data) src =
  drive w acts (GenSuspended data) src.
Proof.
  split.
  - apply drive_ignores_registry.
    destruct (gen_do_account w Next (generate_frames stream_id) src)
      as (_ & _ & Hu). exact Hu.
  - apply drive_ignores_registry. reflexivity.
Qed.

(** X12 -- When the decoder program cannot be started, the first [next] on
    a registered stream raises, and no execution produces any event: no
    process exists, nothing is read, nothing is yielded and nothing is
    killed, whatever the consumer does. *)
Theorem failed_launch_leaves_nothing_behind (w : env) (stream_id : Z)
    (row : string * string * string * Z) (acts : list action)
    (src : byte_source) :
  ffmpeg_starts w = false ->
  one (select_stream (registry w) stream_id) = Some row ->
  gen_next w (generate_frames stream_id) src =
    (Raise LaunchError, GenClosed, src, []) /\
  exists g, drive w acts (generate_frames stream_id) src = (g, src, []).
Proof.
  intros Hfail Hrow.
  assert (Hnext : gen_next w (generate_frames stream_id) src =
                  (Raise LaunchError, GenClosed, src, [])).
  { unfold gen_next, generate_frames. rewrite Hrow, Hfail.
    destruct row as [[[u q] res] f]. reflexivity. }
  split; [exact Hnext|].
  destruct acts as [|a acts]; [eexists; reflexivity|].
  exists GenClosed. rewrite drive_cons. cbv zeta.
  destruct a;
    [change (gen_do w Next (generate_frames stream_id) src)
       with (gen_next w (generate_frames stream_id) src);
     rewrite Hnext | |];
    simpl; rewrite drive_closed; reflexivity.
Qed.

Lemma failed_launch_leaves_nothing_behind_witness :
  gen_next {| registry := registry demo_env; ffmpeg_starts := false |}
    (generate_frames 1) [ReadBytes [xff; xd8; xaa; xff; xd9]] =
  (Raise LaunchError, GenClosed, [ReadBytes [xff; xd8; xaa; xff; xd9]], []).
Proof.
  refine (proj1 (failed_launch_leaves_nothing_behind
    {| registry := registry demo_env; ffmpeg_starts := false |} 1
    ("rtsp://camera/live", "5", "640x480", 15)%string []
    [ReadBytes [xff; xd8; xaa; xff; xd9]] _ _)); reflexivity.
Defined.
